(** * Approximate string matching (Myers' bit-vector algorithm)

    A shallow embedding of [src/index.ts]: the block step [advanceBlock],
    the column scanner [findMatchEnds], the start resolver
    [findMatchStarts], the region filter [findMatchRegions] and the two
    entry points [search] and [multiSearch], followed by the properties
    established about them.

    Conventions of the embedding.
    - A JS string is the list of its UTF-16 code units ([list Z]).
    - A [Uint32Array] is a [list Z] whose entries lie in [0, 2^32): every
      store goes through [toUint32], an out-of-range store is dropped, and
      an out-of-range load yields 0 (that only happens in
      [findMatchRegions] when every pattern is empty, where JS reads
      [undefined] and reaches the same empty result).
    - The bitwise operators of JS work on the signed 32-bit reading of
      their operands ([toInt32]) and return a signed 32-bit value.
    - Error budgets and offsets are integers ([Z]). *)

From Stdlib Require Import ZArith List Bool Lia String Ascii.
From stdpp Require Import base gmap list numbers.

Local Open Scope Z_scope.

(** ** JavaScript 32-bit integer operators *)

Module JS.

Definition toUint32 (x : Z) : Z := x mod 2 ^ 32.

Definition toInt32 (x : Z) : Z :=
  let u := x mod 2 ^ 32 in
  if u <? 2 ^ 31 then u else u - 2 ^ 32.

(** [a | b], [a & b], [a ^ b], [~a], [a << n] *)
Definition bor (a b : Z) : Z := Z.lor (toInt32 a) (toInt32 b).
Definition band (a b : Z) : Z := Z.land (toInt32 a) (toInt32 b).
Definition bxor (a b : Z) : Z := Z.lxor (toInt32 a) (toInt32 b).
Definition bnot (a : Z) : Z := Z.lnot (toInt32 a).
Definition shl (a n : Z) : Z := toInt32 (Z.shiftl (toInt32 a) (n mod 32)).

(** Truthiness of a number: anything but zero. *)
Definition truthy (a : Z) : bool := negb (a =? 0).

(** [Math.ceil(a / 32)] for an integer [a]. *)
Definition ceilDiv32 (a : Z) : Z := (a + 31) / 32.

End JS.

Import JS.

(** ** Typed arrays *)

Definition Uint32Array := list Z.

(** [new Uint32Array(n)] *)
Definition newArray (n : Z) : Uint32Array := replicate (Z.to_nat n) 0.

(** [a[i]] *)
Definition get (a : Uint32Array) (i : Z) : Z :=
  if i <? 0 then 0 else default 0 (a !! Z.to_nat i).

(** [a[i] = v] *)
Definition set (a : Uint32Array) (i : Z) (v : Z) : Uint32Array :=
  if i <? 0 then a else <[Z.to_nat i := toUint32 v]> a.

(** [a.fill(v)] *)
Definition fill (a : Uint32Array) (v : Z) : Uint32Array :=
  map (fun _ => toUint32 v) a.

(** ** Strings *)

Definition JSString := list Z.

Definition len (s : JSString) : Z := Z.of_nat (length s).

(** [s.charCodeAt(i)]; [None] stands for [NaN]. *)
Definition charCodeAt (s : JSString) (i : Z) : option Z :=
  if i <? 0 then None else s !! Z.to_nat i.

(** [s.slice(a, b)] for [0 <= a] and [0 <= b]. *)
Definition slice (s : JSString) (a b : Z) : JSString :=
  take (Z.to_nat (b - a)) (drop (Z.to_nat a) s).

(** [s.split("").reverse().join("")] *)
Definition reverse (s : JSString) : JSString := rev s.

(** Code units of an ASCII literal, to write inputs readably. *)
Fixpoint codes (s : string) : JSString :=
  match s with
  | EmptyString => []
  | String c r => Z.of_N (N_of_ascii c) :: codes r
  end.

(** ** Data model *)

Record Match := mkMatch { m_start : Z; m_end : Z; m_errors : Z }.

Record Region := mkRegion { r_start : Z; r_end : Z }.

Record Context := mkContext {
  bMax : Z;
  P : Uint32Array;
  M : Uint32Array;
  peq : gmap Z Uint32Array;
  lastRowMask : Uint32Array
}.

Definition setP (ctx : Context) (b v : Z) : Context :=
  mkContext (bMax ctx) (set (P ctx) b v) (M ctx) (peq ctx) (lastRowMask ctx).

Definition setM (ctx : Context) (b v : Z) : Context :=
  mkContext (bMax ctx) (P ctx) (set (M ctx) b v) (peq ctx) (lastRowMask ctx).

(** ** Block step *)

(** The word computation of [advanceBlock]: from the block's [pV], [mV],
    the profile word [eq], [hIn] and the last-row mask to
    [(hOut, pV', mV')], with the operators of JS. *)
Definition advanceWords (pV mV eq hIn mask : Z) : Z * Z * Z :=
  let hOut := 0 in
  (* Step 1: horizontal deltas *)
  let xV := bor eq mV in
  let eq := if hIn <? 0 then bor eq 1 else eq in
  let xH := bor (bxor (band eq pV + pV) pV) eq in
  let pH := bor mV (bnot (bor xH pV)) in
  let mH := band pV xH in
  (* Step 2: score of the last row of the block *)
  let hOut :=
    if truthy (band pH mask) then hOut + 1
    else if truthy (band mH mask) then hOut - 1
    else hOut in
  (* Step 3: vertical deltas for the next column *)
  let pH := shl pH 1 in
  let mH := shl mH 1 in
  let '(pH, mH) :=
    if hIn <? 0 then (pH, bor mH 1)
    else if 0 <? hIn then (bor pH 1, mH)
    else (pH, mH) in
  let pV := bor mH (bnot (bor xV pH)) in
  let mV := band pH xV in
  (hOut, pV, mV).

Definition advanceBlock (ctx : Context) (peq : Uint32Array) (b hIn : Z)
  : Z * Context :=
  let '(hOut, pV, mV) :=
    advanceWords (get (P ctx) b) (get (M ctx) b) (get peq b) hIn
                 (get (lastRowMask ctx) b) in
  (hOut, setM (setP ctx b pV) b mV).

(** ** Column scanner *)

(** [for (b = 0; b <= y; b += 1) { carry = advanceBlock(ctx, peq, b, carry);
    score[b] += carry; }] *)
Definition advanceActiveStep (peq : Uint32Array)
  (st : Context * Uint32Array * Z) (b : Z) : Context * Uint32Array * Z :=
  let '(ctx, score, carry) := st in
  let '(carry, ctx) := advanceBlock ctx peq b carry in
  (ctx, set score b (get score b + carry), carry).

Definition advanceActive (ctx : Context) (score peq : Uint32Array) (y : Z)
  : Context * Uint32Array * Z :=
  fold_left (advanceActiveStep peq) (seqZ 0 (y + 1)) (ctx, score, 0).

(** [while (y > 0 && score[y] >= maxErrors + w) { y -= 1; }]; at most [y]
    iterations, so [fuel = y] is enough (see [shrink_stops]). *)
Fixpoint shrink (fuel : nat) (score : Uint32Array) (maxErrors y : Z) : Z :=
  match fuel with
  | O => y
  | S fuel =>
      if (0 <? y) && (maxErrors + 32 <=? get score y)
      then shrink fuel score maxErrors (y - 1)
      else y
  end.

(** [y === bMax ? patLen % w : w] *)
Definition maxBlockScore (patLen bMax y : Z) : Z :=
  if y =? bMax then Z.rem patLen 32 else 32.

(** The profile words of the current text symbol:
    [ctx.peq.get(text.charCodeAt(j))], or [emptyPeq] when undefined. *)
Definition lookupPeq (ctx : Context) (emptyPeq : Uint32Array)
  (ch : option Z) : Uint32Array :=
  match ch with
  | Some c => default emptyPeq (peq ctx !! c)
  | None => emptyPeq
  end.

(** One text symbol: advance the active blocks, then grow or shrink the
    active window.  The body is shared, word for word, by [findMatchEnds]
    (with [patLen = pattern.length]) and by [findMatchRegions] (with
    [patLen = maxPatternLen]). *)
Definition column (patLen : Z) (emptyPeq : Uint32Array) (ctx : Context)
  (score : Uint32Array) (y maxErrors : Z) (ch : option Z)
  : Context * Uint32Array * Z :=
  let peq := lookupPeq ctx emptyPeq ch in
  let '(ctx, score, carry) := advanceActive ctx score peq y in
  if (get score y - carry <=? maxErrors)
     && (y <? bMax ctx)
     && (truthy (band (get peq (y + 1)) 1) || (carry <? 0))
  then
    let y := y + 1 in
    let ctx := setP ctx y (bnot 0) in
    let ctx := setM ctx y 0 in
    let width := maxBlockScore patLen (bMax ctx) y in
    let '(hOut, ctx) := advanceBlock ctx peq y carry in
    let score := set score y (get score (y - 1) + width - carry + hOut) in
    (ctx, score, y)
  else
    (ctx, score, shrink (Z.to_nat y) score maxErrors y).

(** Start-of-scan reset of [y], [score], [ctx.P] and [ctx.M]. *)
Definition initialY (maxErrors : Z) : Z :=
  Z.max 0 (ceilDiv32 maxErrors - 1).

Definition resetScore (patLen bMax : Z) (score : Uint32Array) (y : Z)
  : Uint32Array :=
  let score :=
    fold_left (fun s b => set s b ((b + 1) * 32)) (seqZ 0 (y + 1)) score in
  set score bMax patLen.

Definition resetDeltas (ctx : Context) (y : Z) : Context :=
  fold_left (fun c b => setM (setP c b (bnot 0)) b 0) (seqZ 0 (y + 1)) ctx.

(** [lastRowMask.fill(1 << 31); lastRowMask[bMax] = 1 << (patLen - 1) % w] *)
Definition buildLastRowMask (patLen bMax : Z) : Uint32Array :=
  set (fill (newArray (bMax + 1)) (shl 1 31)) bMax
      (shl 1 (Z.rem (patLen - 1) 32)).

(** ** Profile of a single pattern *)

(** The inner [for r] loop: bit [r] of block [b] is set when
    [pattern[b*w + r] === val]; indexes past the pattern are skipped. *)
Definition peqWord (pattern : JSString) (val b : Z) : Z :=
  fold_left
    (fun word r =>
       let idx := b * 32 + r in
       if len pattern <=? idx then word
       else if bool_decide (charCodeAt pattern idx = Some val)
            then toUint32 (bor word (shl 1 r))
            else word)
    (seqZ 0 32) 0.

Definition peqArray (pattern : JSString) (bMax val : Z) : Uint32Array :=
  map (peqWord pattern val) (seqZ 0 (bMax + 1)).

Definition buildPeq (pattern : JSString) (bMax : Z) : gmap Z Uint32Array :=
  fold_left
    (fun m val =>
       match m !! val with
       | Some _ => m
       | None => <[val := peqArray pattern bMax val]> m
       end)
    pattern ∅.

(** ** findMatchEnds *)

Record ScanState := mkScan {
  s_ctx : Context;
  s_score : Uint32Array;
  s_y : Z;
  s_maxErrors : Z;
  s_matches : list Match
}.

(** The match test and the ratchet at the end of a column. *)
Definition reportMatch (st : ScanState) (j : Z) : ScanState :=
  let score_y := get (s_score st) (s_y st) in
  if (s_y st =? bMax (s_ctx st)) && (score_y <=? s_maxErrors st) then
    let matches :=
      if score_y <? s_maxErrors st then [] else s_matches st in
    mkScan (s_ctx st) (s_score st) (s_y st) score_y
           (matches ++ [mkMatch (-1) (j + 1) score_y])
  else st.

Definition endsStep (text : JSString) (patLen : Z) (emptyPeq : Uint32Array)
  (st : ScanState) (j : Z) : ScanState :=
  let '(ctx, score, y) :=
    column patLen emptyPeq (s_ctx st) (s_score st) (s_y st)
           (s_maxErrors st) (charCodeAt text j) in
  reportMatch (mkScan ctx score y (s_maxErrors st) (s_matches st)) j.

Definition scanRegion (text : JSString) (patLen : Z) (emptyPeq : Uint32Array)
  (st : ScanState) (region : Region) : ScanState :=
  let y := initialY (s_maxErrors st) in
  let score := resetScore patLen (bMax (s_ctx st)) (s_score st) y in
  let ctx := resetDeltas (s_ctx st) y in
  fold_left (endsStep text patLen emptyPeq)
    (seqZ (r_start region) (r_end region - r_start region))
    (mkScan ctx score y (s_maxErrors st) (s_matches st)).

(** The context built for one pattern: zeroed [P] and [M], the profile
    and the last-row masks. *)
Definition newContext (pattern : JSString) : Context :=
  let bMax := ceilDiv32 (len pattern) - 1 in
  mkContext bMax (newArray (bMax + 1)) (newArray (bMax + 1))
            (buildPeq pattern bMax)
            (buildLastRowMask (len pattern) bMax).

Definition findMatchEndsIn (text pattern : JSString) (maxErrors : Z)
  (regions : list Region) : list Match :=
  if len pattern =? 0 then []
  else
    let maxErrors := Z.min maxErrors (len pattern) in
    let ctx := newContext pattern in
    let score := newArray (bMax ctx + 1) in
    let emptyPeq := newArray (bMax ctx + 1) in
    s_matches
      (fold_left (scanRegion text (len pattern) emptyPeq) regions
                 (mkScan ctx score 0 maxErrors [])).

(** The default of the [regions] parameter is the whole text. *)
Definition findMatchEnds (text pattern : JSString) (maxErrors : Z)
  : list Match :=
  findMatchEndsIn text pattern maxErrors [mkRegion 0 (len text)].

(** ** findMatchStarts *)

Definition resolveStart (text pattern : JSString) (m : Match) : Match :=
  let patRev := reverse pattern in
  let minStart := Z.max 0 (m_end m - len pattern - m_errors m) in
  let textRev := reverse (slice text minStart (m_end m)) in
  let start :=
    fold_left
      (fun min rm =>
         if m_end m - m_end rm <? min then m_end m - m_end rm else min)
      (findMatchEnds textRev patRev (m_errors m))
      (m_end m) in
  mkMatch start (m_end m) (m_errors m).

Definition findMatchStarts (text pattern : JSString) (matches : list Match)
  : list Match :=
  map (resolveStart text pattern) matches.

(** ** search *)

Definition search (text pattern : JSString) (maxErrors : Z) : list Match :=
  findMatchStarts text pattern (findMatchEnds text pattern maxErrors).

(** ** findMatchRegions *)

(** [Math.min(...xs)] and [Math.max(...xs)] of a non-empty list. *)
Definition minimum (xs : list Z) : Z :=
  match xs with
  | [] => 0
  | x :: r => fold_left Z.min r x
  end.

Definition maximum (xs : list Z) : Z :=
  match xs with
  | [] => 0
  | x :: r => fold_left Z.max r x
  end.

(** Bit [r] of block [b] of the superimposed profile of [val]: set when
    some pattern ends before [idx = b*w + r] or has [val] at [idx].  The
    [break] at [idx >= maxPatternLen] skips that [r] and all later ones,
    for which the same test holds. *)
Definition combinedPeqWord (patterns : list JSString) (maxPatternLen : Z)
  (val b : Z) : Z :=
  fold_left
    (fun word r =>
       let idx := b * 32 + r in
       if maxPatternLen <=? idx then word
       else
         fold_left
           (fun word pattern =>
              if (len pattern <=? idx)
                 || bool_decide (charCodeAt pattern idx = Some val)
              then toUint32 (bor word (shl 1 r))
              else word)
           patterns word)
    (seqZ 0 32) 0.

Definition combinedPeqArray (patterns : list JSString)
  (maxPatternLen bMax val : Z) : Uint32Array :=
  map (combinedPeqWord patterns maxPatternLen val) (seqZ 0 (bMax + 1)).

Definition buildCombinedPeq (patterns : list JSString)
  (maxPatternLen bMax : Z) : gmap Z Uint32Array :=
  fold_left
    (fun m val =>
       match m !! val with
       | Some _ => m
       | None => <[val := combinedPeqArray patterns maxPatternLen bMax val]> m
       end)
    (concat patterns) ∅.

(** [for (i = minPatternLen; i < maxPatternLen; i++)
      emptyPeq[(i / w) | 0] |= 1 << (i % w)] *)
Definition buildEmptyPeq (minPatternLen maxPatternLen bMax : Z)
  : Uint32Array :=
  fold_left
    (fun e i =>
       let b := i / 32 in
       let r := Z.rem i 32 in
       set e b (bor (get e b) (shl 1 r)))
    (seqZ minPatternLen (maxPatternLen - minPatternLen))
    (newArray (bMax + 1)).

(** Merge the candidate [start, end) into the last region, or push it. *)
Definition addRegion (regions : list Region) (start end_ : Z)
  : list Region :=
  let rl := length regions in
  match regions !! (rl - 1)%nat with
  | Some last =>
      if start <=? r_end last
      then <[(rl - 1)%nat := mkRegion (r_start last) end_]> regions
      else regions ++ [mkRegion start end_]
  | None => regions ++ [mkRegion start end_]
  end.

Record FilterState := mkFilter {
  f_ctx : Context;
  f_score : Uint32Array;
  f_y : Z;
  f_regions : list Region
}.

Definition regionsStep (text : JSString) (maxPatternLen maxErrors : Z)
  (emptyPeq : Uint32Array) (st : FilterState) (j : Z) : FilterState :=
  let '(ctx, score, y) :=
    column maxPatternLen emptyPeq (f_ctx st) (f_score st) (f_y st)
           maxErrors (charCodeAt text j) in
  if (y =? bMax ctx) && (get score y <=? maxErrors) then
    let start := Z.max 0 (j + 1 - maxPatternLen - get score y) in
    let end_ := j + 1 in
    mkFilter ctx score y (addRegion (f_regions st) start end_)
  else mkFilter ctx score y (f_regions st).

Definition findMatchRegions (text : JSString) (patterns : list JSString)
  (maxErrors : Z) : list Region :=
  match patterns with
  | [] => []
  | _ =>
      let minPatternLen := minimum (map len patterns) in
      let maxPatternLen := maximum (map len patterns) in
      let maxErrors := Z.min maxErrors maxPatternLen in
      let bMax := ceilDiv32 maxPatternLen - 1 in
      let ctx :=
        mkContext bMax (newArray (bMax + 1)) (newArray (bMax + 1))
                  (buildCombinedPeq patterns maxPatternLen bMax)
                  (buildLastRowMask maxPatternLen bMax) in
      let emptyPeq := buildEmptyPeq minPatternLen maxPatternLen bMax in
      let y := initialY maxErrors in
      let score := resetScore maxPatternLen bMax (newArray (bMax + 1)) y in
      let ctx := resetDeltas ctx y in
      f_regions
        (fold_left (regionsStep text maxPatternLen maxErrors emptyPeq)
                   (seqZ 0 (len text))
                   (mkFilter ctx score y []))
  end.

(** ** multiSearch *)

Record PatternConfig := mkConfig { pattern : JSString; maxErrors : Z }.

(** The result array together with its [regions] property. *)
Record MultiSearchResult := mkResult {
  matches : list (list Match);
  regions : list Region
}.

Definition multiSearch (text : JSString) (patterns : list PatternConfig)
  : MultiSearchResult :=
  let maxErrorCount :=
    fold_left (fun n p => Z.max (maxErrors p) n) patterns 0 in
  let regions := findMatchRegions text (map pattern patterns) maxErrorCount in
  let matches :=
    map (fun p =>
           let patMatches :=
             findMatchEndsIn text (pattern p) (maxErrors p) regions in
           findMatchStarts text (pattern p) patMatches)
        patterns in
  mkResult matches regions.

(** ** Reference definitions

    What the properties below are measured against; none of these is
    taken from the code. *)

(** Unit-cost edit distance, by the defining recursion over both strings:
    delete from the pattern, insert into it, or substitute/keep. *)
Fixpoint editDistance (s : JSString) : JSString -> Z :=
  match s with
  | [] => fun t => len t
  | a :: s' =>
      fix against (t : JSString) : Z :=
        match t with
        | [] => len (a :: s')
        | b :: t' =>
            Z.min (Z.min (editDistance s' t + 1) (against t' + 1))
                  (editDistance s' t' + (if a =? b then 0 else 1))
        end
  end.

(** Every substring [text[i:j]], [0 <= i <= j <= len text]. *)
Definition substrings (text : JSString) : list JSString :=
  flat_map
    (fun i => map (fun j => slice text i j) (seqZ i (len text - i + 1)))
    (seqZ 0 (len text + 1)).

(** The least edit distance between the pattern and any substring of the
    text. *)
Definition bestDistance (text pattern : JSString) : Z :=
  minimum (map (editDistance pattern) (substrings text)).

(** The literal occurrences of a pattern, as zero-error matches in
    increasing order of offset. *)
Definition literalOccurrences (text pattern : JSString) : list Match :=
  flat_map
    (fun i =>
       if bool_decide (slice text i (i + len pattern) = pattern)
       then [mkMatch i (i + len pattern) 0] else [])
    (seqZ 0 (len text - len pattern + 1)).

(** A match end lies inside a region when the region covers the last
    symbol of the match. *)
Definition insideRegion (end_ : Z) (r : Region) : Prop :=
  r_start r < end_ <= r_end r.

(** Consecutive regions are strictly separated. *)
Definition separated (rs : list Region) : Prop :=
  forall (i : nat) (r r' : Region),
    rs !! i = Some r -> rs !! S i = Some r' -> r_end r < r_start r'.

(** Every recorded match carries the current threshold as its error
    count. *)
Definition atThreshold (st : ScanState) : Prop :=
  Forall (fun m => m_errors m = s_maxErrors st) (s_matches st).

(** A pattern of 64 symbols ['a']: two full blocks. *)
Definition a64 : JSString := replicate 64 97.

(** Every recorded match ends in [(lo, hi]]. *)
Definition endsWithin (lo hi : Z) (ms : list Match) : Prop :=
  Forall (fun m => lo < m_end m <= hi) ms.

(** Entries of a typed array, as integers, are never negative. *)
Definition nonneg (a : Uint32Array) : Prop := Forall (fun x => 0 <= x) a.

(** Every region is a non-empty range [start, end) with [0 <= start] and
    [end <= hi]. *)
Definition regionsWithin (hi : Z) (rs : list Region) : Prop :=
  Forall (fun r => 0 <= r_start r < r_end r /\ r_end r <= hi) rs.

(** What the region filter maintains after [j] columns. *)
Definition filterInv (maxLen j : Z) (st : FilterState) : Prop :=
  nonneg (f_score st) /\ 0 <= f_y st
  /\ bMax (f_ctx st) = ceilDiv32 maxLen - 1
  /\ regionsWithin j (f_regions st).

(** The block width the expansion step is specified to use: 32 for an
    interior block, and for the final block [patLen mod 32], or 32 when
    that remainder is 0. *)
Definition blockWidth_spec (patLen bMax y : Z) : Z :=
  if y =? bMax
  then (if patLen mod 32 =? 0 then 32 else patLen mod 32)
  else 32.

(** Congruence modulo 2^32: the two integers store the same word. *)
Definition eqm (a b : Z) : Prop := a mod 2 ^ 32 = b mod 2 ^ 32.

(** *** The block transition as specified

    The recurrence over 32-bit unsigned words with wrap-around, written
    from its specification and compared with [advanceBlock] below. *)
Module W32.

Definition wrap (x : Z) : Z := x mod 2 ^ 32.
Definition or (a b : Z) : Z := wrap (Z.lor a b).
Definition and (a b : Z) : Z := wrap (Z.land a b).
Definition xor (a b : Z) : Z := wrap (Z.lxor a b).
Definition not (a : Z) : Z := wrap (2 ^ 32 - 1 - a).
Definition add (a b : Z) : Z := wrap (a + b).
Definition shl1 (a : Z) : Z := wrap (2 * a).

End W32.

Definition blockTransition_spec (P M profileWord hIn lastRowMask : Z)
  : Z * Z * Z :=
  let eq := if hIn <? 0 then W32.or profileWord 1 else profileWord in
  let xV := W32.or profileWord M in
  let xH := W32.or (W32.xor (W32.add (W32.and eq P) P) P) eq in
  let pH := W32.or M (W32.not (W32.or xH P)) in
  let mH := W32.and P xH in
  let hOut :=
    if negb (W32.and pH lastRowMask =? 0) then 1
    else if negb (W32.and mH lastRowMask =? 0) then -1
    else 0 in
  let pH := W32.shl1 pH in
  let mH := W32.shl1 mH in
  let '(pH, mH) :=
    if hIn <? 0 then (pH, W32.or mH 1)
    else if 0 <? hIn then (W32.or pH 1, mH)
    else (pH, mH) in
  let P' := W32.or mH (W32.not (W32.or xV pH)) in
  let M' := W32.and pH xV in
  (hOut, P', M').

(** ** Earlier revisions

    Two earlier revisions of [index.ts] are part of the sources.  The
    later of the two has no regions and no ratchet: [findMatchEnds] records
    every column within the budget and [findMatchStarts] keeps the matches
    of least cost.  Its block step, profile, reset and column body are
    those of the current revision.  From the earlier one only [alphabet]
    is embedded. *)

Module Rev1.

(** The match test at the end of a column: record, keep the threshold. *)
Definition reportMatch (st : ScanState) (j : Z) : ScanState :=
  let score_y := get (s_score st) (s_y st) in
  if (s_y st =? bMax (s_ctx st)) && (score_y <=? s_maxErrors st) then
    mkScan (s_ctx st) (s_score st) (s_y st) (s_maxErrors st)
           (s_matches st ++ [mkMatch (-1) (j + 1) score_y])
  else st.

Definition endsStep (text : JSString) (patLen : Z) (emptyPeq : Uint32Array)
  (st : ScanState) (j : Z) : ScanState :=
  let '(ctx, score, y) :=
    column patLen emptyPeq (s_ctx st) (s_score st) (s_y st)
           (s_maxErrors st) (charCodeAt text j) in
  reportMatch (mkScan ctx score y (s_maxErrors st) (s_matches st)) j.

Definition findMatchEnds (text pattern : JSString) (maxErrors : Z)
  : list Match :=
  if len pattern =? 0 then []
  else
    let maxErrors := Z.min maxErrors (len pattern) in
    let ctx := newContext pattern in
    let emptyPeq := newArray (bMax ctx + 1) in
    let y := initialY maxErrors in
    let score :=
      resetScore (len pattern) (bMax ctx) (newArray (bMax ctx + 1)) y in
    let ctx := resetDeltas ctx y in
    s_matches
      (fold_left (endsStep text (len pattern) emptyPeq)
                 (seqZ 0 (len text))
                 (mkScan ctx score y maxErrors [])).

(** [Math.min(...matches.map(m => m.errors))]; [None] stands for the
    [Infinity] of an empty list. *)
Definition minCost (matches : list Match) : option Z :=
  match map m_errors matches with
  | [] => None
  | x :: r => Some (fold_left Z.min r x)
  end.

Definition resolveStart
  (findEndFn : JSString -> JSString -> Z -> list Match)
  (text pattern : JSString) (m : Match) : Match :=
  let minStart := Z.max 0 (m_end m - len pattern - m_errors m) in
  let textRev := reverse (slice text minStart (m_end m)) in
  let patRev := reverse pattern in
  let start :=
    fold_left
      (fun min rm =>
         if m_end m - m_end rm <? min then m_end m - m_end rm else min)
      (findEndFn textRev patRev (m_errors m))
      (m_end m) in
  mkMatch start (m_end m) (m_errors m).

Definition findMatchStarts (text pattern : JSString) (matches : list Match)
  (findEndFn : JSString -> JSString -> Z -> list Match) : list Match :=
  let minCost := minCost matches in
  map (resolveStart findEndFn text pattern)
      (filter (fun m => Some (m_errors m) = minCost) matches).

Definition search (text pattern : JSString) (maxErrors : Z) : list Match :=
  findMatchStarts text pattern (findMatchEnds text pattern maxErrors)
                  findMatchEnds.

End Rev1.

Module Rev0.

(** [alphabet(str)]: each symbol of [str] mapped to the number of distinct
    symbols seen before its first occurrence ([chars.size] at insertion). *)
Definition alphabet (str : JSString) : gmap Z Z :=
  fold_left
    (fun chars c =>
       match chars !! c with
       | Some _ => chars
       | None => <[c := Z.of_nat (size chars)]> chars
       end)
    str ∅.

End Rev0.

(** ** Predicates of the further properties *)

(** A word of a typed array. *)
Definition isWord (x : Z) : Prop := 0 <= x < 2 ^ 32.


(** The end offsets increase strictly along the list. *)
Definition endsIncrease (ms : list Match) : Prop :=
  forall (i j : nat) (m m' : Match),
    (i < j)%nat -> ms !! i = Some m -> ms !! j = Some m' ->
    m_end m < m_end m'.

(** Pattern [p] accepts [val] at position [idx]: it has ended, or has
    [val] there. *)
Definition accepts (val idx : Z) (p : JSString) : bool :=
  (len p <=? idx) || bool_decide (charCodeAt p idx = Some val).


(** The score words are non-negative, the window index too, and so is
    every recorded error count. *)
Definition countsOk (st : ScanState) : Prop :=
  nonneg (s_score st) /\ 0 <= s_y st
  /\ Forall (fun m => 0 <= m_errors m) (s_matches st).

(** What holds of every match once its start is resolved. *)
Definition matchOk (text pattern : JSString) (k : Z) (m : Match) : Prop :=
  0 <= m_start m <= m_end m
  /\ 1 <= m_end m <= len text
  /\ m_end m - m_start m <= len pattern + m_errors m
  /\ 0 <= m_errors m <= Z.min k (len pattern).

(** The ratcheted scan [st] against the scan [st1] of the earlier revision
    with budget [k0], for a pattern of one block: same arrays, and the
    ratchet holds the least-cost matches of those recorded so far. *)
Definition leastCost (k0 : Z) (st st1 : ScanState) : Prop :=
  s_ctx st = s_ctx st1 /\ s_score st = s_score st1
  /\ s_y st = 0 /\ s_y st1 = 0 /\ bMax (s_ctx st) = 0
  /\ s_maxErrors st1 = k0 /\ s_maxErrors st <= k0
  /\ s_matches st
     = filter (fun m => m_errors m = s_maxErrors st) (s_matches st1)
  /\ Forall (fun m => s_maxErrors st <= m_errors m) (s_matches st1)
  /\ ((s_matches st1 = [] /\ s_maxErrors st = k0)
      \/ Exists (fun m => m_errors m = s_maxErrors st) (s_matches st1)).

(** The ranks in [chars] are the numbers below its size, one per key. *)
Definition ranked (chars : gmap Z Z) : Prop :=
  (forall c v, chars !! c = Some v -> 0 <= v < Z.of_nat (size chars))
  /\ (forall c d v, chars !! c = Some v -> chars !! d = Some v -> c = d)
  /\ (forall v, 0 <= v < Z.of_nat (size chars) -> exists c, chars !! c = Some v).

(** A horizontal delta. *)
Definition isDelta (h : Z) : Prop := h = -1 \/ h = 0 \/ h = 1.

(** The matches [ms'] continue [ms] past offset [a]: either [ms] is kept
    and followed by later matches, or only later matches remain. *)
Definition continues (a : Z) (ms ms' : list Match) : Prop :=
  (exists later, ms' = ms ++ later /\ Forall (fun m => a < m_end m) later)
  \/ Forall (fun m => a < m_end m) ms'.

(** The state [findMatchRegions] builds before its loop over the text. *)
Definition filterStart (patterns : list JSString) (maxErrors : Z)
  : FilterState :=
  let maxPatternLen := maximum (map len patterns) in
  let maxErrors := Z.min maxErrors maxPatternLen in
  let bMax := ceilDiv32 maxPatternLen - 1 in
  let ctx :=
    mkContext bMax (newArray (bMax + 1)) (newArray (bMax + 1))
              (buildCombinedPeq patterns maxPatternLen bMax)
              (buildLastRowMask maxPatternLen bMax) in
  let y := initialY maxErrors in
  mkFilter (resetDeltas ctx y)
           (resetScore maxPatternLen bMax (newArray (bMax + 1)) y) y [].

(** The loop of [findMatchRegions] over the columns [0 .. n-1]. *)
Definition filterScan (text : JSString) (patterns : list JSString)
  (maxErrors : Z) (n : Z) : FilterState :=
  let maxPatternLen := maximum (map len patterns) in
  fold_left
    (regionsStep text maxPatternLen (Z.min maxErrors maxPatternLen)
       (buildEmptyPeq (minimum (map len patterns)) maxPatternLen
          (ceilDiv32 maxPatternLen - 1)))
    (seqZ 0 n) (filterStart patterns maxErrors).

(** Column [j] is flagged when, after it, the window is at the last block
    with a score within the budget. *)
Definition flagged (text : JSString) (patterns : list JSString)
  (maxErrors : Z) (j : Z) : bool :=
  let maxPatternLen := maximum (map len patterns) in
  let k := Z.min maxErrors maxPatternLen in
  let before := filterScan text patterns maxErrors j in
  let '(ctx, score, y) :=
    column maxPatternLen
      (buildEmptyPeq (minimum (map len patterns)) maxPatternLen
         (ceilDiv32 maxPatternLen - 1))
      (f_ctx before) (f_score before) (f_y before) k (charCodeAt text j) in
  (y =? bMax ctx) && (get score y <=? k).

(** Offset [e] lies inside one of the regions. *)
Definition covered (e : Z) (rs : list Region) : Prop :=
  exists r, r ∈ rs /\ insideRegion e r.

(** * Properties *)

(** ** Arithmetic modulo 2^32

    Two integers are congruent when they store the same word into a
    [Uint32Array].  Every JS operator used by the block step respects
    the congruence and agrees with its unsigned counterpart. *)

Section Congruence.

Lemma eqm_refl a : eqm a a.
Proof. reflexivity. Qed.

Lemma eqm_sym a b : eqm a b -> eqm b a.
Proof. unfold eqm; congruence. Qed.

Lemma eqm_trans a b c : eqm a b -> eqm b c -> eqm a c.
Proof. unfold eqm; congruence. Qed.

Lemma eqm_testbit a b :
  eqm a b <-> (forall i, 0 <= i < 32 -> Z.testbit a i = Z.testbit b i).
Proof.
  unfold eqm; split.
  - intros E i Hi.
    rewrite <- (Z.mod_pow2_bits_low a 32 i), <- (Z.mod_pow2_bits_low b 32 i) by lia.
    now rewrite E.
  - intros E. apply Z.bits_inj'. intros i Hi.
    rewrite !Z.testbit_mod_pow2 by lia.
    destruct (Z.ltb_spec i 32); simpl; [apply E; lia | reflexivity].
Qed.

Lemma eqm_shift a k : eqm (a + k * 2 ^ 32) a.
Proof. unfold eqm. apply Z_mod_plus_full. Qed.

Lemma eqm_wrap a b : eqm a b -> eqm a (W32.wrap b).
Proof. unfold eqm, W32.wrap. intros ->. now rewrite Zmod_mod. Qed.

Lemma eqm_toInt32 a b : eqm a b -> eqm (toInt32 a) b.
Proof.
  intros E. apply eqm_trans with a; auto. unfold toInt32.
  destruct (_ <? _).
  - unfold eqm. apply Zmod_mod.
  - apply eqm_trans with (a mod 2 ^ 32).
    + replace (a mod 2 ^ 32 - 2 ^ 32) with (a mod 2 ^ 32 + (-1) * 2 ^ 32) by lia.
      apply eqm_shift.
    + unfold eqm. apply Zmod_mod.
Qed.

Lemma eqm_add a b a' b' : eqm a a' -> eqm b b' -> eqm (a + b) (a' + b').
Proof.
  unfold eqm. intros Ea Eb.
  rewrite (Zplus_mod a b), (Zplus_mod a' b'). now rewrite Ea, Eb.
Qed.

Lemma eqm_double a a' : eqm a a' -> eqm (2 * a) (2 * a').
Proof.
  intros E. replace (2 * a) with (a + a) by lia.
  replace (2 * a') with (a' + a') by lia. now apply eqm_add.
Qed.

Lemma eqm_lor a b a' b' : eqm a a' -> eqm b b' -> eqm (Z.lor a b) (Z.lor a' b').
Proof.
  rewrite !eqm_testbit. intros Ea Eb i Hi.
  rewrite !Z.lor_spec. now rewrite Ea, Eb.
Qed.

Lemma eqm_land a b a' b' : eqm a a' -> eqm b b' -> eqm (Z.land a b) (Z.land a' b').
Proof.
  rewrite !eqm_testbit. intros Ea Eb i Hi.
  rewrite !Z.land_spec. now rewrite Ea, Eb.
Qed.

Lemma eqm_lxor a b a' b' : eqm a a' -> eqm b b' -> eqm (Z.lxor a b) (Z.lxor a' b').
Proof.
  rewrite !eqm_testbit. intros Ea Eb i Hi.
  rewrite !Z.lxor_spec. now rewrite Ea, Eb.
Qed.

Lemma eqm_lnot a a' : eqm a a' -> eqm (Z.lnot a) (2 ^ 32 - 1 - a').
Proof.
  intros E. unfold Z.lnot.
  replace (Z.pred (- a)) with ((-1) + (- a)) by lia.
  replace (2 ^ 32 - 1 - a') with (((-1) + (- a')) + 1 * 2 ^ 32) by lia.
  apply eqm_sym, eqm_trans with (-1 + - a'); [apply eqm_shift|].
  apply eqm_add; [apply eqm_refl|].
  unfold eqm in *.
  rewrite <- (Z.sub_0_l a), <- (Z.sub_0_l a').
  rewrite (Zminus_mod 0 a), (Zminus_mod 0 a'). now rewrite E.
Qed.

End Congruence.

(** ** The JS operators against the unsigned word operators *)

Section JSWords.

Lemma bor_eqm a b a' b' : eqm a a' -> eqm b b' -> eqm (bor a b) (W32.or a' b').
Proof. intros. apply eqm_wrap, eqm_lor; now apply eqm_toInt32. Qed.

Lemma band_eqm a b a' b' : eqm a a' -> eqm b b' -> eqm (band a b) (W32.and a' b').
Proof. intros. apply eqm_wrap, eqm_land; now apply eqm_toInt32. Qed.

Lemma bxor_eqm a b a' b' : eqm a a' -> eqm b b' -> eqm (bxor a b) (W32.xor a' b').
Proof. intros. apply eqm_wrap, eqm_lxor; now apply eqm_toInt32. Qed.

Lemma bnot_eqm a a' : eqm a a' -> eqm (bnot a) (W32.not a').
Proof. intros. apply eqm_wrap, eqm_lnot. now apply eqm_toInt32. Qed.

Lemma add_eqm a b a' b' : eqm a a' -> eqm b b' -> eqm (a + b) (W32.add a' b').
Proof. intros. now apply eqm_wrap, eqm_add. Qed.

Lemma shl1_eqm a a' : eqm a a' -> eqm (shl a 1) (W32.shl1 a').
Proof.
  intros E. unfold shl. apply eqm_toInt32, eqm_wrap.
  change (1 mod 32) with 1. rewrite Z.shiftl_mul_pow2 by lia.
  change (2 ^ 1) with 2. rewrite Z.mul_comm.
  now apply eqm_double, eqm_toInt32.
Qed.

(** Bits 31 and above of a signed 32-bit value all equal the sign bit. *)
Lemma testbit_small v n i : 0 <= v < 2 ^ n -> 0 <= n <= i -> Z.testbit v i = false.
Proof.
  intros Hv Hi. rewrite <- (Z.mod_small v (2 ^ n)) by lia.
  apply Z.mod_pow2_bits_high. lia.
Qed.

Lemma toInt32_sign a i : 31 <= i -> Z.testbit (toInt32 a) i = Z.testbit (toInt32 a) 31.
Proof.
  intros Hi. unfold toInt32.
  pose proof (Z.mod_pos_bound a (2 ^ 32) ltac:(lia)) as Hu.
  destruct (Z.ltb_spec (a mod 2 ^ 32) (2 ^ 31)).
  - rewrite !(testbit_small _ 31); auto; lia.
  - replace (a mod 2 ^ 32 - 2 ^ 32) with (Z.lnot (2 ^ 32 - 1 - a mod 2 ^ 32))
      by (unfold Z.lnot; lia).
    rewrite !Z.lnot_spec by lia.
    rewrite !(testbit_small _ 31); auto; lia.
Qed.

Lemma truthy_band a m a' m' :
  eqm a a' -> eqm m m' -> truthy (band a m) = negb (W32.and a' m' =? 0).
Proof.
  intros Ea Em. unfold truthy. f_equal.
  pose proof (band_eqm a m a' m' Ea Em) as E.
  assert (Hr : 0 <= W32.and a' m' < 2 ^ 32) by (apply Z.mod_pos_bound; lia).
  destruct (Z.eqb_spec (W32.and a' m') 0) as [Hz|Hz].
  - apply Z.eqb_eq. rewrite Hz in E. apply Z.bits_inj'. intros i Hi.
    rewrite Z.bits_0. rewrite eqm_testbit in E.
    destruct (Z.ltb_spec i 32).
    + rewrite E by lia. apply Z.bits_0.
    + unfold band. rewrite Z.land_spec, !(toInt32_sign _ i) by lia.
      rewrite <- Z.land_spec. fold (band a m). rewrite E by lia. apply Z.bits_0.
  - apply Z.eqb_neq. intros Hb. rewrite Hb in E. apply Hz.
    unfold eqm in E. rewrite (Z.mod_small (W32.and a' m')) in E by lia.
    now rewrite <- E.
Qed.

End JSWords.

(** ** The block step computes the specified recurrence *)

Create HintDb w32.
#[local] Hint Resolve eqm_refl bor_eqm band_eqm bxor_eqm bnot_eqm add_eqm shl1_eqm : w32.

Lemma eqm_store x y : eqm x y -> W32.wrap y = y -> toUint32 x = y.
Proof.
  unfold eqm, toUint32, W32.wrap. intros -> E. exact E.
Qed.

Lemma advanceWords_spec pV mV eq hIn mask :
  (let '(hOut, pV', mV') := advanceWords pV mV eq hIn mask in
   (hOut, toUint32 pV', toUint32 mV'))
  = blockTransition_spec pV mV eq hIn mask.
Proof.
  unfold advanceWords, blockTransition_spec.
  destruct (hIn <? 0); [|destruct (0 <? hIn)];
    repeat match goal with
    | |- context [truthy (band ?a ?m)] =>
        match goal with
        | |- context [W32.and ?a' ?m' =? 0] =>
            rewrite (truthy_band a m a' m') by (auto 30 with w32)
        end
    end.
  all: repeat match goal with
    | |- context [if negb ?c then _ else _] => destruct c; simpl negb; cbv iota
    end.
  all: repeat apply f_equal2; try reflexivity.
  all: apply eqm_store; [auto 30 with w32 | unfold W32.or, W32.and, W32.wrap; apply Zmod_mod].
Qed.

Lemma set_congruent a b x y : toUint32 x = y -> W32.wrap y = y -> set a b x = set a b y.
Proof.
  intros Hx Hy. unfold set. destruct (b <? 0); [reflexivity|].
  f_equal. unfold W32.wrap in Hy. unfold toUint32 in *. congruence.
Qed.

Lemma blockTransition_spec_words pV mV eq hIn mask :
  let '(_, P', M') := blockTransition_spec pV mV eq hIn mask in
  W32.wrap P' = P' /\ W32.wrap M' = M'.
Proof.
  unfold blockTransition_spec.
  destruct (hIn <? 0); [|destruct (0 <? hIn)];
    split; unfold W32.or, W32.and, W32.wrap; apply Zmod_mod.
Qed.

(** C5.  [advanceBlock] is a function of the block's [P] and [M] words, the
    profile word of the current symbol, [hIn] and the block's last-row
    mask.  It returns the [hOut] of the specified recurrence over 32-bit
    unsigned words (which is 1, -1 or 0), stores the recurrence's new [P]
    and [M] words (both in [0, 2^32)) into block [b], and leaves the rest
    of the context alone.  This holds for every [hIn], in particular for
    -1, 0 and 1. *)
Theorem advanceBlock_refines_spec (ctx : Context) (peqA : Uint32Array)
  (b hIn : Z) :
  let '(hOut, P', M') :=
    blockTransition_spec (get (P ctx) b) (get (M ctx) b) (get peqA b) hIn
                         (get (lastRowMask ctx) b) in
  advanceBlock ctx peqA b hIn =
    (hOut, mkContext (bMax ctx) (set (P ctx) b P') (set (M ctx) b M')
                     (peq ctx) (lastRowMask ctx))
  /\ (hOut = 1 \/ hOut = -1 \/ hOut = 0)
  /\ 0 <= P' < 2 ^ 32 /\ 0 <= M' < 2 ^ 32.
Proof.
  unfold advanceBlock.
  pose proof (advanceWords_spec (get (P ctx) b) (get (M ctx) b) (get peqA b)
                hIn (get (lastRowMask ctx) b)) as Hw.
  pose proof (blockTransition_spec_words (get (P ctx) b) (get (M ctx) b)
                (get peqA b) hIn (get (lastRowMask ctx) b)) as Hr.
  destruct (advanceWords _ _ _ _ _) as [[h p] m].
  destruct (blockTransition_spec _ _ _ _ _) as [[hOut P'] M'] eqn:Hs.
  injection Hw as -> Hp Hm. destruct Hr as [HP HM].
  split; [|split; [|split]].
  - unfold setM, setP; simpl.
    now rewrite (set_congruent _ _ p P'), (set_congruent _ _ m M').
  - unfold blockTransition_spec in Hs.
    destruct (hIn <? 0); [|destruct (0 <? hIn)];
      injection Hs as <- _ _;
      repeat match goal with
        | |- context [if ?c then _ else _] => destruct c
        end; auto.
  - rewrite <- HP. apply Z.mod_pos_bound. lia.
  - rewrite <- HM. apply Z.mod_pos_bound. lia.
Qed.

(** ** The region list stays merged *)

Section Regions.

Lemma separated_nil : separated [].
Proof. intros i r r' H. discriminate. Qed.

Lemma separated_singleton r : separated [r].
Proof. intros i q q' _ H. destruct i; discriminate. Qed.

Lemma separated_snoc rs q r :
  separated (rs ++ [q]) -> r_end q < r_start r ->
  separated ((rs ++ [q]) ++ [r]).
Proof.
  intros Hs Hlt i a a' Ha Ha'.
  destruct (decide (S i < length (rs ++ [q]))%nat) as [Hi|Hi].
  - rewrite lookup_app_l in Ha by lia. rewrite lookup_app_l in Ha' by lia.
    eapply Hs; eauto.
  - assert (S i = length (rs ++ [q])) as Hlen.
    { apply lookup_lt_Some in Ha'. rewrite length_app in Ha'. simpl in Ha'. lia. }
    rewrite lookup_app_r in Ha' by lia.
    replace (S i - length (rs ++ [q]))%nat with 0%nat in Ha' by lia.
    simpl in Ha'. injection Ha' as <-.
    rewrite lookup_app_l in Ha by lia.
    rewrite length_app in Hlen. simpl in Hlen.
    rewrite lookup_app_r in Ha by lia.
    replace (i - length rs)%nat with 0%nat in Ha by lia.
    simpl in Ha. injection Ha as <-. exact Hlt.
Qed.

Lemma separated_extend rs q e :
  separated (rs ++ [q]) -> separated (rs ++ [mkRegion (r_start q) e]).
Proof.
  intros Hs i a a' Ha Ha'.
  assert (S i < length rs + 1)%nat as Hi.
  { apply lookup_lt_Some in Ha'. rewrite length_app in Ha'. simpl in Ha'. lia. }
  rewrite lookup_app_l in Ha by lia.
  destruct (decide (S i < length rs)%nat) as [Hlt|Hge].
  - rewrite lookup_app_l in Ha' by lia.
    apply (Hs i a a'); rewrite lookup_app_l by lia; assumption.
  - rewrite lookup_app_r in Ha' by lia.
    replace (S i - length rs)%nat with 0%nat in Ha' by lia.
    simpl in Ha'. injection Ha' as <-. simpl.
    apply (Hs i a q).
    + rewrite lookup_app_l by lia. assumption.
    + rewrite lookup_app_r by lia.
      replace (S i - length rs)%nat with 0%nat by lia. reflexivity.
Qed.

Lemma addRegion_nil s e : addRegion [] s e = [mkRegion s e].
Proof. reflexivity. Qed.

Lemma addRegion_merge rs q s e :
  s <= r_end q ->
  addRegion (rs ++ [q]) s e = rs ++ [mkRegion (r_start q) e].
Proof.
  intros Hle. unfold addRegion.
  rewrite length_app. simpl.
  replace (length rs + 1 - 1)%nat with (length rs + 0)%nat by lia.
  rewrite lookup_app_r by lia.
  replace (length rs + 0 - length rs)%nat with 0%nat by lia. simpl.
  destruct (Z.leb_spec s (r_end q)); [|lia].
  rewrite insert_app_r. reflexivity.
Qed.

Lemma addRegion_push rs q s e :
  r_end q < s ->
  addRegion (rs ++ [q]) s e = (rs ++ [q]) ++ [mkRegion s e].
Proof.
  intros Hlt. unfold addRegion.
  rewrite length_app. simpl.
  replace (length rs + 1 - 1)%nat with (length rs + 0)%nat by lia.
  rewrite lookup_app_r by lia.
  replace (length rs + 0 - length rs)%nat with 0%nat by lia. simpl.
  destruct (Z.leb_spec s (r_end q)); [lia|]. reflexivity.
Qed.

Lemma addRegion_separated rs s e :
  separated rs -> separated (addRegion rs s e).
Proof.
  intros Hs. destruct rs as [|q rs _] using rev_ind.
  - rewrite addRegion_nil. apply separated_singleton.
  - destruct (Z.le_gt_cases s (r_end q)).
    + rewrite addRegion_merge by assumption. now apply separated_extend.
    + rewrite addRegion_push by lia. now apply separated_snoc.
Qed.

Lemma regionsStep_separated text n k e st j :
  separated (f_regions st) ->
  separated (f_regions (regionsStep text n k e st j)).
Proof.
  intros Hs. unfold regionsStep.
  destruct (column _ _ _ _ _ _ _) as [[ctx score] y].
  destruct (_ && _); simpl; auto using addRegion_separated.
Qed.

Lemma regionsScan_separated text n k e js st :
  separated (f_regions st) ->
  separated (f_regions (fold_left (regionsStep text n k e) js st)).
Proof.
  revert st. induction js as [|j js IH]; intros st Hs; simpl; auto.
  apply IH, regionsStep_separated, Hs.
Qed.

Lemma findMatchRegions_separated text patterns k :
  separated (findMatchRegions text patterns k).
Proof.
  unfold findMatchRegions. destruct patterns as [|p ps].
  - apply separated_nil.
  - apply regionsScan_separated. apply separated_nil.
Qed.

End Regions.

(** ** Regions lie in the text *)

Section ArrayBounds.

Lemma toUint32_nonneg x : 0 <= toUint32 x.
Proof. unfold toUint32. apply Z.mod_pos_bound. lia. Qed.

Lemma set_nonneg a i v : nonneg a -> nonneg (set a i v).
Proof.
  intros H. unfold set. destruct (i <? 0); [exact H|].
  apply Forall_insert; [exact H | apply toUint32_nonneg].
Qed.

Lemma get_nonneg a i : nonneg a -> 0 <= get a i.
Proof.
  intros H. unfold get. destruct (i <? 0); [lia|].
  destruct (a !! Z.to_nat i) as [x|] eqn:E; simpl; [|lia].
  exact (Forall_lookup_1 _ _ _ _ H E).
Qed.

Lemma newArray_nonneg n : nonneg (newArray n).
Proof. unfold nonneg, newArray. apply Forall_replicate. lia. Qed.

Lemma resetScore_nonneg patLen bMax score y :
  nonneg score -> nonneg (resetScore patLen bMax score y).
Proof.
  intros H. unfold resetScore. apply set_nonneg.
  revert score H. induction (seqZ 0 (y + 1)) as [|b bs IH]; intros score H;
    simpl; [exact H|].
  apply IH, set_nonneg, H.
Qed.

End ArrayBounds.

Section ColumnInvariant.

Lemma advanceBlock_bMax ctx peqA b hIn :
  bMax (snd (advanceBlock ctx peqA b hIn)) = bMax ctx.
Proof.
  unfold advanceBlock. destruct (advanceWords _ _ _ _ _) as [[h p] m].
  reflexivity.
Qed.

Lemma advanceActive_invariant ctx score peqA y :
  nonneg score ->
  let '(ctx', score', _) := advanceActive ctx score peqA y in
  nonneg score' /\ bMax ctx' = bMax ctx.
Proof.
  unfold advanceActive. generalize 0 at 2. revert ctx score.
  induction (seqZ 0 (y + 1)) as [|b bs IH]; intros ctx score carry H; simpl.
  - split; [exact H | reflexivity].
  - pose proof (advanceBlock_bMax ctx peqA b carry) as Hb.
    destruct (advanceBlock ctx peqA b carry) as [carry' ctx'] eqn:E.
    simpl in Hb.
    specialize (IH ctx' (set score b (get score b + carry')) carry'
                   (set_nonneg _ _ _ H)).
    destruct (fold_left _ bs _) as [[ctx'' score''] carry''].
    destruct IH as [IH1 IH2]. split; [exact IH1 | congruence].
Qed.

Lemma shrink_range fuel score k y :
  0 <= y -> 0 <= shrink fuel score k y <= y.
Proof.
  revert y. induction fuel as [|fuel IH]; intros y Hy; simpl; [lia|].
  destruct (Z.ltb_spec 0 y); simpl; [|lia].
  destruct (_ <=? _); [|lia].
  specialize (IH (y - 1)). lia.
Qed.

Lemma column_invariant patLen emptyPeq ctx score y k ch :
  nonneg score -> 0 <= y ->
  let '(ctx', score', y') := column patLen emptyPeq ctx score y k ch in
  nonneg score' /\ 0 <= y' /\ bMax ctx' = bMax ctx.
Proof.
  intros Hs Hy. unfold column.
  pose proof (advanceActive_invariant ctx score (lookupPeq ctx emptyPeq ch) y Hs)
    as Ha.
  destruct (advanceActive _ _ _ _) as [[ctx1 score1] carry].
  destruct Ha as [Hs1 Hb1].
  destruct (_ && _).
  - match goal with
    | |- context [advanceBlock ?c ?p ?b ?h] =>
        pose proof (advanceBlock_bMax c p b h) as Hb2;
        destruct (advanceBlock c p b h) as [hOut ctx2]
    end.
    simpl in Hb2. repeat split; [now apply set_nonneg | lia | congruence].
  - pose proof (shrink_range (Z.to_nat y) score1 k y Hy).
    repeat split; [exact Hs1 | lia | exact Hb1].
Qed.

End ColumnInvariant.

Section RegionBounds.

Lemma regionsWithin_mono hi hi' rs :
  hi <= hi' -> regionsWithin hi rs -> regionsWithin hi' rs.
Proof.
  intros Hle. unfold regionsWithin. apply Forall_impl. intros r Hr. lia.
Qed.

Lemma addRegion_within j rs s :
  regionsWithin j rs -> 0 <= s < j + 1 ->
  regionsWithin (j + 1) (addRegion rs s (j + 1)).
Proof.
  intros H Hs. destruct rs as [|q rs _] using rev_ind.
  - rewrite addRegion_nil. repeat constructor; simpl; lia.
  - apply Forall_app in H as [Hrs Hq].
    apply (regionsWithin_mono j (j + 1)) in Hrs; [|lia].
    inversion Hq as [|? ? Hq' _]; subst.
    destruct (Z.le_gt_cases s (r_end q)).
    + rewrite addRegion_merge by assumption.
      apply Forall_app; split; [exact Hrs|].
      repeat constructor; simpl; lia.
    + rewrite addRegion_push by lia.
      apply Forall_app; split; [apply Forall_app; split; [exact Hrs|]|].
      * repeat constructor; lia.
      * repeat constructor; simpl; lia.
Qed.

End RegionBounds.

Section FilterInvariant.

Variables (text : JSString) (maxLen k : Z) (emptyPeq : Uint32Array).
Hypothesis maxLen_nonneg : 0 <= maxLen.

Lemma full_window_pattern y : 0 <= y -> y = ceilDiv32 maxLen - 1 -> 1 <= maxLen.
Proof.
  unfold ceilDiv32. intros Hy ->.
  destruct (Z.eq_dec maxLen 0) as [->|]; [|lia].
  vm_compute in Hy. contradiction.
Qed.

Lemma regionsStep_invariant st j :
  0 <= j -> filterInv maxLen j st ->
  filterInv maxLen (j + 1) (regionsStep text maxLen k emptyPeq st j).
Proof.
  intros Hj (Hs & Hy & Hb & Hr). unfold regionsStep.
  pose proof (column_invariant maxLen emptyPeq (f_ctx st) (f_score st)
                (f_y st) k (charCodeAt text j) Hs Hy) as Hc.
  destruct (column _ _ _ _ _ _ _) as [[ctx score] y].
  destruct Hc as (Hs' & Hy' & Hb').
  destruct ((y =? bMax ctx) && (get score y <=? k)) eqn:E.
  - apply andb_true_iff in E as [Ey _]. apply Z.eqb_eq in Ey.
    assert (1 <= maxLen) by (apply (full_window_pattern y); congruence).
    pose proof (get_nonneg score y Hs').
    repeat split; simpl; try assumption; try congruence.
    apply addRegion_within; [exact Hr | lia].
  - repeat split; simpl; try assumption; try congruence.
    apply (regionsWithin_mono j); [lia | exact Hr].
Qed.

Lemma regionsScan_invariant (n : nat) st :
  filterInv maxLen 0 st ->
  filterInv maxLen (Z.of_nat n)
    (fold_left (regionsStep text maxLen k emptyPeq) (seqZ 0 (Z.of_nat n)) st).
Proof.
  intros H. induction n as [|n IH]; [exact H|].
  rewrite seqZ_S, fold_left_app. simpl.
  replace (Z.of_nat (S n)) with (Z.of_nat n + 1) by lia.
  apply regionsStep_invariant; [lia | exact IH].
Qed.

End FilterInvariant.

Lemma fold_max_ge r x : x <= fold_left Z.max r x.
Proof.
  revert x. induction r as [|a r IH]; intros x; simpl; [lia|].
  specialize (IH (Z.max x a)). lia.
Qed.

Lemma maximum_len_nonneg (patterns : list JSString) :
  0 <= maximum (map len patterns).
Proof.
  destruct patterns as [|p ps]; simpl; [lia|].
  pose proof (fold_max_ge (map len ps) (len p)). unfold len in *. lia.
Qed.

Lemma resetDeltas_bMax ctx y : bMax (resetDeltas ctx y) = bMax ctx.
Proof.
  unfold resetDeltas. revert ctx.
  induction (seqZ 0 (y + 1)) as [|b bs IH]; intros ctx; simpl; [reflexivity|].
  now rewrite IH.
Qed.

(** Every region lies in the text and is not empty. *)
Lemma findMatchRegions_within text patterns k :
  regionsWithin (len text) (findMatchRegions text patterns k).
Proof.
  unfold findMatchRegions. destruct patterns as [|p ps]; [constructor|].
  set (ps' := p :: ps).
  match goal with
  | |- regionsWithin _ (f_regions (fold_left ?f _ ?st)) =>
      pose proof (regionsScan_invariant text (maximum (map len ps'))
                    (Z.min k (maximum (map len ps')))
                    (buildEmptyPeq (minimum (map len ps'))
                       (maximum (map len ps'))
                       (ceilDiv32 (maximum (map len ps')) - 1))
                    (maximum_len_nonneg ps') (length text) st) as H
  end.
  apply H. repeat split; simpl.
  - apply resetScore_nonneg, newArray_nonneg.
  - unfold initialY. lia.
  - now rewrite resetDeltas_bMax.
  - constructor.
Qed.

(** C9.  The regions attached to the result of [multiSearch] are merged,
    non-overlapping and in strictly increasing order: any two consecutive
    regions [r], [r'] satisfy [r.end < r'.start] (so their starts and their
    ends increase strictly), and every region is a non-empty range of the
    text.  The list is maintained by [addRegion], which extends the end of
    the last region when the candidate's start is at most that end, and
    pushes the candidate otherwise (or when the list is empty). *)
Theorem regions_merged_increasing (text : JSString)
  (configs : list PatternConfig) :
  let rs := regions (multiSearch text configs) in
  separated rs
  /\ regionsWithin (len text) rs
  /\ (forall (i : nat) r r', rs !! i = Some r -> rs !! S i = Some r' ->
        r_start r < r_start r' /\ r_end r < r_end r')
  /\ (forall rs q s e, s <= r_end q ->
        addRegion (rs ++ [q]) s e = rs ++ [mkRegion (r_start q) e])
  /\ (forall rs q s e, r_end q < s ->
        addRegion (rs ++ [q]) s e = (rs ++ [q]) ++ [mkRegion s e])
  /\ (forall s e, addRegion [] s e = [mkRegion s e]).
Proof.
  assert (Hsep : separated (regions (multiSearch text configs))).
  { unfold multiSearch; simpl. apply findMatchRegions_separated. }
  assert (Hin : regionsWithin (len text) (regions (multiSearch text configs))).
  { unfold multiSearch; simpl. apply findMatchRegions_within. }
  simpl. split; [exact Hsep|]. split; [exact Hin|].
  split; [|split; [|split]].
  - intros i r r' Hr Hr'.
    pose proof (Hsep i r r' Hr Hr').
    pose proof (Forall_lookup_1 _ _ _ _ Hin Hr).
    pose proof (Forall_lookup_1 _ _ _ _ Hin Hr').
    simpl in *. lia.
  - intros. now apply addRegion_merge.
  - intros. now apply addRegion_push.
  - intros. apply addRegion_nil.
Qed.

(** Two separate regions on a concrete text: the occurrences of "one" at
    both ends of "one xxxxxxxxxxxx one". *)
Lemma regions_merged_increasing_witness :
  let text := codes "one xxxxxxxxxxxx one" in
  let configs := [mkConfig (codes "one") 0] in
  regions (multiSearch text configs) = [mkRegion 0 3; mkRegion 17 20]
  /\ r_end (mkRegion 0 3) < r_start (mkRegion 17 20).
Proof.
  split; [vm_compute; reflexivity|].
  destruct (regions_merged_increasing (codes "one xxxxxxxxxxxx one")
              [mkConfig (codes "one") 0]) as [Hsep _].
  apply (Hsep 0%nat); vm_compute; reflexivity.
Defined.

(** ** Entry points: budgets and empty inputs *)

Lemma findMatchEndsIn_clamp text pattern k rs :
  findMatchEndsIn text pattern k rs
  = findMatchEndsIn text pattern (Z.min k (len pattern)) rs.
Proof.
  unfold findMatchEndsIn.
  now rewrite <- Z.min_assoc, Z.min_id.
Qed.

(** C7.  A budget above the pattern length is normalised to the pattern
    length: for every non-negative [k], [search text pattern k] returns
    the list that [search text pattern (min k (len pattern))] returns.
    [search] is a total function, so no budget is rejected. *)
Theorem search_clamps_budget (text pattern : JSString) (k : Z) :
  0 <= k ->
  search text pattern k = search text pattern (Z.min k (len pattern)).
Proof.
  intros _. unfold search, findMatchEnds.
  now rewrite findMatchEndsIn_clamp.
Qed.

Lemma search_clamps_budget_witness :
  0 <= 50
  /\ search (codes "four score") (codes "score") 50
     = search (codes "four score") (codes "score")
              (Z.min 50 (len (codes "score"))).
Proof.
  split; [lia | apply (search_clamps_budget _ _ 50); lia].
Defined.

(** C8.  An empty text yields no match for any pattern and budget, and an
    empty pattern yields no match for any text and budget; in particular
    [search("", "foo", 0)] and [search("foo", "", 0)] are empty. *)
Theorem search_empty_inputs :
  (forall pattern k, search [] pattern k = [])
  /\ (forall text k, search text [] k = [])
  /\ search (codes "") (codes "foo") 0 = []
  /\ search (codes "foo") (codes "") 0 = [].
Proof.
  assert (Ht : forall pattern k, search [] pattern k = []).
  { intros pattern k. unfold search, findMatchEnds, findMatchEndsIn.
    destruct (len pattern =? 0); reflexivity. }
  assert (Hp : forall text k, search text [] k = []).
  { intros text k. reflexivity. }
  repeat split; auto.
Qed.

(** C10.  With no pattern configuration, [multiSearch] returns no
    per-pattern list and an empty [regions] property, for every text: the
    region filter returns at once and no scan runs. *)
Theorem multiSearch_no_patterns (text : JSString) :
  multiSearch text [] = mkResult [] []
  /\ forall k, findMatchRegions text [] k = [].
Proof.
  split; reflexivity.
Qed.

(** ** The scanner's window and threshold *)

(** The [while] loop of the shrink step has stopped when [shrink]
    returns: [fuel = y] never runs out. *)
Lemma shrink_stops (score : Uint32Array) (k : Z) (fuel : nat) (y : Z) :
  y <= Z.of_nat fuel ->
  let y' := shrink fuel score k y in
  (0 <? y') && (k + 32 <=? get score y') = false.
Proof.
  revert y. induction fuel as [|fuel IH]; intros y Hy; simpl.
  - destruct (Z.ltb_spec 0 y); [lia | reflexivity].
  - destruct ((0 <? y) && (k + 32 <=? get score y)) eqn:E.
    + apply IH. lia.
    + exact E.
Qed.

Lemma shrink_in_column (score : Uint32Array) (k y : Z) :
  0 <= y ->
  let y' := shrink (Z.to_nat y) score k y in
  (0 <? y') && (k + 32 <=? get score y') = false.
Proof.
  intros Hy. apply shrink_stops. lia.
Qed.

(** The expansion step as the code performs it: the new block's score is
    [score[y-1] + maxBlockScore - carry + hOut]. *)
Lemma column_expands patLen emptyPeq ctx score y k ch :
  let peqA := lookupPeq ctx emptyPeq ch in
  let '(ctx1, score1, carry) := advanceActive ctx score peqA y in
  let '(hOut, ctx2) :=
    advanceBlock (setM (setP ctx1 (y + 1) (bnot 0)) (y + 1) 0) peqA (y + 1)
                 carry in
  (get score1 y - carry <=? k) && (y <? bMax ctx1)
    && (truthy (band (get peqA (y + 1)) 1) || (carry <? 0)) = true ->
  column patLen emptyPeq ctx score y k ch
  = (ctx2,
     set score1 (y + 1)
         (get score1 y + maxBlockScore patLen (bMax ctx1) (y + 1) - carry
          + hOut),
     y + 1).
Proof.
  intros peqA. unfold column. fold peqA.
  destruct (advanceActive ctx score peqA y) as [[ctx1 score1] carry].
  simpl bMax.
  destruct (advanceBlock _ peqA (y + 1) carry) as [hOut ctx2].
  intros ->. now replace (y + 1 - 1) with y by lia.
Qed.

(** The width used by the code is the specified one except for a final
    block of full width. *)
Lemma maxBlockScore_agrees patLen bMax y :
  0 <= patLen -> (y <> bMax \/ patLen mod 32 <> 0) ->
  maxBlockScore patLen bMax y = blockWidth_spec patLen bMax y.
Proof.
  intros Hp H. unfold maxBlockScore, blockWidth_spec.
  destruct (Z.eqb_spec y bMax) as [->|]; [|reflexivity].
  rewrite Z.rem_mod_nonneg by lia.
  destruct (Z.eqb_spec (patLen mod 32) 0); [|reflexivity].
  destruct H; congruence.
Qed.

Section Ratchet.

(** The threshold after the match test is the old one or the recorded
    error count, never more. *)
Lemma reportMatch_threshold st j :
  s_maxErrors (reportMatch st j) <= s_maxErrors st.
Proof.
  unfold reportMatch.
  destruct (s_y st =? bMax (s_ctx st)); simpl; [|lia].
  destruct (Z.leb_spec (get (s_score st) (s_y st)) (s_maxErrors st));
    simpl; lia.
Qed.

(** A candidate strictly below the threshold replaces what was recorded. *)
Lemma reportMatch_discards st j :
  s_y st = bMax (s_ctx st) ->
  get (s_score st) (s_y st) < s_maxErrors st ->
  s_matches (reportMatch st j)
  = [mkMatch (-1) (j + 1) (get (s_score st) (s_y st))].
Proof.
  intros Hy Hlt. unfold reportMatch.
  rewrite Hy, Z.eqb_refl. rewrite <- Hy.
  destruct (Z.leb_spec (get (s_score st) (s_y st)) (s_maxErrors st));
    [|lia].
  destruct (Z.ltb_spec (get (s_score st) (s_y st)) (s_maxErrors st));
    [|lia].
  reflexivity.
Qed.

Lemma reportMatch_atThreshold st j :
  atThreshold st -> atThreshold (reportMatch st j).
Proof.
  unfold atThreshold, reportMatch. intros H.
  destruct (s_y st =? bMax (s_ctx st)); [|exact H].
  destruct (Z.leb_spec (get (s_score st) (s_y st)) (s_maxErrors st));
    [|exact H].
  simpl. apply Forall_app; split; [|repeat constructor].
  destruct (Z.ltb_spec (get (s_score st) (s_y st)) (s_maxErrors st)).
  - constructor.
  - replace (get (s_score st) (s_y st)) with (s_maxErrors st) by lia.
    exact H.
Qed.

End Ratchet.

Section RatchetScan.

Variables (text : JSString) (patLen : Z) (emptyPeq : Uint32Array).

Lemma endsStep_threshold st j :
  s_maxErrors (endsStep text patLen emptyPeq st j) <= s_maxErrors st.
Proof.
  unfold endsStep. destruct (column _ _ _ _ _ _ _) as [[ctx score] y].
  apply (reportMatch_threshold (mkScan ctx score y _ _)).
Qed.

Lemma endsStep_atThreshold st j :
  atThreshold st -> atThreshold (endsStep text patLen emptyPeq st j).
Proof.
  intros H. unfold endsStep. destruct (column _ _ _ _ _ _ _) as [[ctx score] y].
  now apply reportMatch_atThreshold.
Qed.

Lemma endsScan_ratchet js st :
  atThreshold st ->
  let st' := fold_left (endsStep text patLen emptyPeq) js st in
  atThreshold st' /\ s_maxErrors st' <= s_maxErrors st.
Proof.
  revert st. induction js as [|j js IH]; intros st H; simpl.
  - split; [exact H | lia].
  - destruct (IH (endsStep text patLen emptyPeq st j)) as [Ha Hk].
    + now apply endsStep_atThreshold.
    + split; [exact Ha|]. pose proof (endsStep_threshold st j). lia.
Qed.

Lemma scanRegion_ratchet st region :
  atThreshold st ->
  let st' := scanRegion text patLen emptyPeq st region in
  atThreshold st' /\ s_maxErrors st' <= s_maxErrors st.
Proof.
  intros H. unfold scanRegion.
  apply (endsScan_ratchet _ (mkScan _ _ _ (s_maxErrors st) (s_matches st))).
  exact H.
Qed.

Lemma regionsScan_ratchet rs st :
  atThreshold st ->
  let st' := fold_left (scanRegion text patLen emptyPeq) rs st in
  atThreshold st' /\ s_maxErrors st' <= s_maxErrors st.
Proof.
  revert st. induction rs as [|r rs IH]; intros st H; simpl.
  - split; [exact H | lia].
  - destruct (scanRegion_ratchet st r H) as [Ha Hk].
    destruct (IH _ Ha) as [Ha' Hk']. split; [exact Ha' | lia].
Qed.

End RatchetScan.

(** All the matches [findMatchEnds] returns carry one error count, which
    is at most the clamped budget. *)
Lemma findMatchEndsIn_ratchet text pattern k rs :
  exists k', k' <= Z.min k (len pattern)
    /\ Forall (fun m => m_errors m = k') (findMatchEndsIn text pattern k rs).
Proof.
  unfold findMatchEndsIn. destruct (len pattern =? 0).
  - exists (Z.min k (len pattern)). split; [lia | constructor].
  - match goal with
    | |- context [fold_left ?f rs ?st] =>
        destruct (regionsScan_ratchet text (len pattern)
                    (newArray (bMax (newContext pattern) + 1)) rs st)
          as [Ha Hk]; [constructor|];
        exists (s_maxErrors (fold_left f rs st))
    end.
    split; [exact Hk | exact Ha].
Qed.

Lemma findMatchStarts_errors text pattern ms :
  map m_errors (findMatchStarts text pattern ms) = map m_errors ms.
Proof.
  unfold findMatchStarts. rewrite map_map. reflexivity.
Qed.

Lemma findMatchStarts_ends text pattern ms :
  map m_end (findMatchStarts text pattern ms) = map m_end ms.
Proof.
  unfold findMatchStarts. rewrite map_map. reflexivity.
Qed.

(** ** Offsets of the reported matches *)

Section EndOffsets.

Variables (text : JSString) (patLen : Z) (emptyPeq : Uint32Array).
Variables (lo hi : Z).

Lemma reportMatch_ends st j :
  lo <= j < hi -> endsWithin lo hi (s_matches st) ->
  endsWithin lo hi (s_matches (reportMatch st j)).
Proof.
  intros Hj H. unfold endsWithin, reportMatch in *. destruct (_ && _); [|exact H]. simpl.
  apply Forall_app; split.
  - destruct (_ <? _); [constructor | exact H].
  - repeat constructor; simpl; lia.
Qed.

Lemma endsStep_ends st j :
  lo <= j < hi -> endsWithin lo hi (s_matches st) ->
  endsWithin lo hi (s_matches (endsStep text patLen emptyPeq st j)).
Proof.
  intros Hj H. unfold endsStep.
  destruct (column _ _ _ _ _ _ _) as [[ctx score] y].
  now apply reportMatch_ends.
Qed.

Lemma endsScan_ends js st :
  Forall (fun j => lo <= j < hi) js -> endsWithin lo hi (s_matches st) ->
  endsWithin lo hi (s_matches (fold_left (endsStep text patLen emptyPeq) js st)).
Proof.
  revert st. induction js as [|j js IH]; intros st Hjs H; simpl; [exact H|].
  inversion Hjs; subst. apply IH; [assumption|]. now apply endsStep_ends.
Qed.

Lemma scanRegion_ends st region :
  lo <= r_start region -> r_end region <= hi ->
  endsWithin lo hi (s_matches st) ->
  endsWithin lo hi (s_matches (scanRegion text patLen emptyPeq st region)).
Proof.
  intros Hlo Hhi H. unfold scanRegion. apply endsScan_ends; [|exact H].
  apply Forall_seqZ. intros j Hj. lia.
Qed.

Lemma regionsScan_ends rs st :
  Forall (fun r => lo <= r_start r /\ r_end r <= hi) rs ->
  endsWithin lo hi (s_matches st) ->
  endsWithin lo hi (s_matches (fold_left (scanRegion text patLen emptyPeq) rs st)).
Proof.
  revert st. induction rs as [|r rs IH]; intros st Hrs H; simpl; [exact H|].
  inversion Hrs as [|? ? [Hlo Hhi] Hrest]; subst.
  apply IH; [assumption|]. now apply scanRegion_ends.
Qed.

End EndOffsets.

(** Match ends reported for the whole text lie in [1, len text]. *)
Lemma findMatchEnds_ends text pattern k :
  Forall (fun m => 0 < m_end m <= len text) (findMatchEnds text pattern k).
Proof.
  unfold findMatchEnds, findMatchEndsIn. destruct (len pattern =? 0).
  - constructor.
  - apply regionsScan_ends; [|constructor].
    repeat constructor; simpl; lia.
Qed.

Section Starts.

Lemma len_slice text a b : len (slice text a b) <= Z.max 0 (b - a).
Proof.
  unfold len, slice. rewrite length_take. lia.
Qed.

Lemma len_reverse s : len (reverse s) = len s.
Proof. unfold len, reverse. now rewrite length_rev. Qed.

Lemma min_start_bounds e L rms init :
  Forall (fun rm => 0 < m_end rm <= L) rms ->
  let start :=
    fold_left
      (fun min rm => if e - m_end rm <? min then e - m_end rm else min)
      rms init in
  Z.min init (e - L) <= start <= init.
Proof.
  revert init. induction rms as [|rm rms IH]; intros init H; simpl; [lia|].
  inversion H as [|? ? Hrm Hrest]; subst.
  specialize (IH (if e - m_end rm <? init then e - m_end rm else init) Hrest).
  simpl in IH. destruct (Z.ltb_spec (e - m_end rm) init); lia.
Qed.

Lemma resolveStart_bounds text pattern m :
  0 < m_end m ->
  let m' := resolveStart text pattern m in
  0 <= m_start m' <= m_end m' /\ m_end m' = m_end m
  /\ m_errors m' = m_errors m.
Proof.
  intros He. unfold resolveStart. simpl.
  set (minStart := Z.max 0 (m_end m - len pattern - m_errors m)).
  set (textRev := reverse (slice text minStart (m_end m))).
  pose proof (min_start_bounds (m_end m) (len textRev)
                (findMatchEnds textRev (reverse pattern) (m_errors m))
                (m_end m) (findMatchEnds_ends _ _ _)) as Hb.
  simpl in Hb.
  assert (len textRev <= Z.max 0 (m_end m - minStart)) as HL.
  { unfold textRev. rewrite len_reverse. apply len_slice. }
  assert (0 <= minStart) by (unfold minStart; lia).
  repeat split; lia.
Qed.

End Starts.

(** Every match of [search] has [0 <= start <= end <= len text] and an
    error count within the budget; all of them share one error count. *)
Lemma search_bounds text pattern k :
  Forall (fun m => 0 <= m_start m <= m_end m /\ m_end m <= len text
                   /\ m_errors m <= k)
         (search text pattern k).
Proof.
  unfold search, findMatchStarts.
  pose proof (findMatchEnds_ends text pattern k) as He.
  destruct (findMatchEndsIn_ratchet text pattern k [mkRegion 0 (len text)])
    as (k' & Hk & Hr).
  fold (findMatchEnds text pattern k) in Hr.
  induction (findMatchEnds text pattern k) as [|m ms IH]; simpl; [constructor|].
  inversion He as [|? ? [Hm1 Hm2] He']; subst.
  inversion Hr as [|? ? Hm3 Hr']; subst.
  constructor; [|now apply IH].
  destruct (resolveStart_bounds text pattern m Hm1) as (Hs & Hend & Herr).
  rewrite Hend in *. rewrite Herr. repeat split; lia.
Qed.

(** ** The test suite's inputs *)

Example exact_blind :
  search (codes "three blind mice") (codes "blind") 5 = [mkMatch 6 11 0].
Proof. vm_compute. reflexivity. Qed.

Example one_error_thrae :
  search (codes "three blind mice") (codes "thrae") 5
  = [mkMatch 0 4 1; mkMatch 0 5 1].
Proof. vm_compute. reflexivity. Qed.

Example many_errors_square :
  search (codes "four squareand seven") (codes "square  and") 11
  = [mkMatch 5 14 2].
Proof. vm_compute. reflexivity. Qed.

Example no_match_candles :
  search (codes "four candles") (codes "foouur") 1 = [].
Proof. vm_compute. reflexivity. Qed.

Example budget_above_length :
  search (codes "four score") (codes "score") 50 = [mkMatch 5 10 0].
Proof. vm_compute. reflexivity. Qed.

Example multiSearch_numbers :
  matches (multiSearch (codes "one two three four five six")
             [mkConfig (codes "one") 2; mkConfig (codes "twwo") 2;
              mkConfig (codes "fivve") 2])
  = [[mkMatch 0 3 0]; [mkMatch 4 7 1]; [mkMatch 19 23 1]].
Proof. vm_compute. reflexivity. Qed.

(** ** Inputs on which the code departs from its specification *)

(** C1 (failing input).  [search("abab", "abc", 1)] returns the match
    [{start: 0, end: 4, errors: 1}], but the edit distance between "abc"
    and [text[0:4] = "abab"] is 2: the reported error count is not the
    distance to the reported substring.  The start comes from the reversed
    scan of "baba" for "cba", which reports end 4 for the substring "aba"
    that does not begin at the reversed text's first symbol. *)
Theorem search_errors_differ_from_distance :
  search (codes "abab") (codes "abc") 1
  = [mkMatch 0 2 1; mkMatch 0 3 1; mkMatch 0 4 1]
  /\ editDistance (codes "abc") (slice (codes "abab") 0 4) = 2
  /\ findMatchEnds (reverse (slice (codes "abab") 0 4))
                   (reverse (codes "abc")) 1
     = [mkMatch (-1) 2 1; mkMatch (-1) 4 1]
  /\ editDistance (reverse (codes "abc")) (codes "aba") = 1.
Proof. vm_compute. repeat split; reflexivity. Qed.

(** C2 (failing input).  For the text "ab" and the patterns "ab" and "abc",
    both with budget 0, [search("ab", "ab", 0)] finds the match ending at
    offset 2, while [multiSearch] returns no region at all, so that match
    end lies inside none of its regions (and the pattern's own result list
    is empty). *)
Theorem multiSearch_regions_miss_match_end :
  let configs := [mkConfig (codes "ab") 0; mkConfig (codes "abc") 0] in
  search (codes "ab") (codes "ab") 0 = [mkMatch 0 2 0]
  /\ multiSearch (codes "ab") configs = mkResult [[]; []] []
  /\ ~ exists r, In r (regions (multiSearch (codes "ab") configs))
               /\ insideRegion 2 r.
Proof.
  vm_compute. repeat split; try reflexivity.
  intros [r [[] _]].
Qed.

(** C3 (failing input).  For the pattern [a64] (64 symbols, so the final
    block 1 is full), budget 32 and the text symbol ['a'], the window
    expands from block 0 to block 1 with [carry = -1] and [hOut = -1].
    The code uses the width [64 % 32 = 0] and stores [score[1] = 31]; the
    specified width is 32, which gives [score[0] + 32 - carry + hOut = 63]. *)
Theorem expansion_width_zero_for_full_final_block :
  let ctx := resetDeltas (newContext a64) (initialY 32) in
  let score := resetScore 64 (bMax ctx) (newArray 2) (initialY 32) in
  let peqA := lookupPeq ctx (newArray 2) (Some 97) in
  let '(ctx1, score1, carry) := advanceActive ctx score peqA 0 in
  let '(hOut, _) :=
    advanceBlock (setM (setP ctx1 1 (bnot 0)) 1 0) peqA 1 carry in
  let '(_, score2, y2) := column 64 (newArray 2) ctx score 0 32 (Some 97) in
  bMax ctx = 1 /\ y2 = 1 /\ carry = -1 /\ hOut = -1
  /\ maxBlockScore 64 1 1 = 0 /\ blockWidth_spec 64 1 1 = 32
  /\ get score2 1 = 31
  /\ get score1 0 + blockWidth_spec 64 1 1 - carry + hOut = 63.
Proof. vm_compute. repeat split; reflexivity. Qed.

(** C4 (failing input).  [search("a", a64, 32)] returns a single match
    with error count 31, although no substring of "a" is closer than 63
    edits to the pattern [a64] (so no match within the budget 32 exists at
    all); with budget 64 the same call reports 63. *)
Theorem ratchet_reports_below_best_distance :
  findMatchEnds (codes "a") a64 32 = [mkMatch (-1) 1 31]
  /\ search (codes "a") a64 32 = [mkMatch 1 1 31]
  /\ bestDistance (codes "a") a64 = 63
  /\ search (codes "a") a64 64 = [mkMatch 0 1 63].
Proof. vm_compute. repeat split; reflexivity. Qed.

(** C6 (failing input).  The pattern [a64] occurs literally in the text
    [a64] at offset 0, but [search(a64, a64, 0)] returns no match.  The
    example of the claim holds: [search("three blind mice", "blind", 0)]
    is [[{start: 6, end: 11, errors: 0}]], its only literal occurrence. *)
Theorem exact_search_misses_occurrence :
  literalOccurrences a64 a64 = [mkMatch 0 64 0]
  /\ search a64 a64 0 = []
  /\ search (codes "three blind mice") (codes "blind") 0 = [mkMatch 6 11 0]
  /\ literalOccurrences (codes "three blind mice") (codes "blind")
     = [mkMatch 6 11 0].
Proof. vm_compute. repeat split; reflexivity. Qed.

(** * Further properties of the code

    Properties read off the source beyond the claims above: the profiles,
    the window, the offsets and error counts of the results, the region
    filter, and the two earlier revisions. *)

Section Arrays.

Lemma len_set a i v : len (set a i v) = len a.
Proof.
  unfold len, set. destruct (i <? 0); [reflexivity|]. f_equal. apply length_insert.
Qed.

Lemma len_newArray n : 0 <= n -> len (newArray n) = n.
Proof. intros H. unfold len, newArray. rewrite length_replicate. lia. Qed.

Lemma get_set_same a i v : 0 <= i < len a -> get (set a i v) i = toUint32 v.
Proof.
  unfold len, get, set. intros H. destruct (Z.ltb_spec i 0); [lia|].
  rewrite (list_lookup_insert_eq (A:=Z)) by lia. reflexivity.
Qed.

Lemma get_set_other a i j v : i <> j -> get (set a i v) j = get a j.
Proof.
  unfold get, set. intros H. destruct (Z.ltb_spec j 0); [reflexivity|].
  destruct (Z.ltb_spec i 0); [reflexivity|].
  rewrite (list_lookup_insert_ne (A:=Z)) by lia. reflexivity.
Qed.

Lemma get_newArray n i : get (newArray n) i = 0.
Proof.
  unfold get, newArray. destruct (i <? 0); [reflexivity|].
  destruct (decide (Z.to_nat i < Z.to_nat n)%nat) as [H|H].
  - pose proof (lookup_replicate_2 (Z.to_nat n) 0 (Z.to_nat i) H) as E.
    unfold Uint32Array. now rewrite E.
  - assert (replicate (Z.to_nat n) 0 !! Z.to_nat i = None) as E
      by (apply lookup_replicate_None; lia).
    unfold Uint32Array. now rewrite E.
Qed.

Lemma get_map_seqZ (f : Z -> Z) n i :
  0 <= i < n -> get (map f (seqZ 0 n)) i = f i.
Proof.
  intros H. unfold get. destruct (Z.ltb_spec i 0); [lia|].
  pose proof (list_lookup_fmap f (seqZ 0 n) (Z.to_nat i)) as E.
  rewrite lookup_seqZ_lt in E by lia. simpl in E.
  change (f <$> seqZ 0 n) with (map f (seqZ 0 n)) in E.
  unfold Uint32Array. rewrite E. simpl. f_equal. lia.
Qed.

End Arrays.

Section Bits.

Lemma toInt32_testbit a i : 0 <= i < 32 -> Z.testbit (toInt32 a) i = Z.testbit a i.
Proof.
  intros H. pose proof (eqm_toInt32 a a (eqm_refl a)) as E.
  rewrite eqm_testbit in E. now apply E.
Qed.

Lemma toUint32_testbit a i : 0 <= i < 32 -> Z.testbit (toUint32 a) i = Z.testbit a i.
Proof.
  intros H. unfold toUint32. apply Z.mod_pow2_bits_low. lia.
Qed.

Lemma toUint32_high a i : 32 <= i -> Z.testbit (toUint32 a) i = false.
Proof.
  intros H. unfold toUint32. apply Z.mod_pow2_bits_high. lia.
Qed.

Lemma shl_one_testbit r i :
  0 <= r < 32 -> 0 <= i < 32 -> Z.testbit (shl 1 r) i = (i =? r).
Proof.
  intros Hr Hi. unfold shl. rewrite toInt32_testbit by lia.
  change (toInt32 1) with 1. rewrite Z.mod_small by lia.
  rewrite Z.shiftl_1_l. rewrite Z.pow2_bits_eqb by lia.
  apply Z.eqb_sym.
Qed.

(** [w |= 1 << r], stored back into a typed array, sets bit [r] and keeps
    the others. *)
Lemma setbit_testbit w r i :
  0 <= r < 32 -> 0 <= i < 32 ->
  Z.testbit (toUint32 (bor w (shl 1 r))) i = Z.testbit w i || (i =? r).
Proof.
  intros Hr Hi. rewrite toUint32_testbit by lia. unfold bor.
  rewrite Z.lor_spec, !toInt32_testbit by lia.
  now rewrite shl_one_testbit.
Qed.

End Bits.

Section Profile.

Lemma charCodeAt_Some s i c : charCodeAt s i = Some c -> 0 <= i < len s.
Proof.
  unfold charCodeAt, len. destruct (Z.ltb_spec i 0); [discriminate|].
  intros E. apply lookup_lt_Some in E. lia.
Qed.

Lemma charCodeAt_elem s i c : charCodeAt s i = Some c -> c ∈ s.
Proof.
  unfold charCodeAt. destruct (i <? 0); [discriminate|].
  intros H. apply list_elem_of_lookup. eauto.
Qed.

Lemma peqWord_fold pattern val b rs w i :
  0 <= i < 32 -> Forall (fun r => 0 <= r < 32) rs ->
  Z.testbit
    (fold_left
       (fun word r =>
          let idx := b * 32 + r in
          if len pattern <=? idx then word
          else if bool_decide (charCodeAt pattern idx = Some val)
               then toUint32 (bor word (shl 1 r))
               else word) rs w) i
  = Z.testbit w i
    || (bool_decide (i ∈ rs)
        && bool_decide (charCodeAt pattern (b * 32 + i) = Some val)).
Proof.
  intros Hi Hrs. revert w. induction Hrs as [|r rs Hr Hrs IH]; intros w; cbn [fold_left].
  - rewrite bool_decide_eq_false_2 by (apply not_elem_of_nil).
    now rewrite orb_false_r.
  - rewrite IH. clear IH.
    destruct (Z.eq_dec i r) as [->|Hne].
    + rewrite (bool_decide_eq_true_2 (r ∈ r :: rs)) by (apply elem_of_cons; auto).
      simpl. destruct (Z.leb_spec (len pattern) (b * 32 + r)).
      * rewrite (bool_decide_eq_false_2 (charCodeAt _ _ = _)).
        -- now rewrite andb_false_r, !orb_false_r.
        -- intros E. apply charCodeAt_Some in E. lia.
      * destruct (bool_decide (charCodeAt pattern (b * 32 + r) = Some val)).
        -- rewrite setbit_testbit, Z.eqb_refl by lia.
           now rewrite orb_true_r, !orb_true_l.
        -- now rewrite andb_false_r, !orb_false_r.
    + assert (Z.testbit
                (if len pattern <=? b * 32 + r then w
                 else if bool_decide (charCodeAt pattern (b * 32 + r) = Some val)
                      then toUint32 (bor w (shl 1 r)) else w) i
              = Z.testbit w i) as ->.
      { destruct (_ <=? _); [reflexivity|]. destruct (bool_decide _); [|reflexivity].
        rewrite setbit_testbit by lia.
        destruct (Z.eqb_spec i r); [lia|]. now rewrite orb_false_r. }
      f_equal. f_equal. apply bool_decide_ext. rewrite elem_of_cons. tauto.
Qed.

Lemma peqWord_testbit pattern val b r :
  0 <= r < 32 ->
  Z.testbit (peqWord pattern val b) r
  = bool_decide (charCodeAt pattern (b * 32 + r) = Some val).
Proof.
  intros Hr. unfold peqWord. rewrite peqWord_fold.
  - rewrite Z.bits_0, orb_false_l.
    rewrite (bool_decide_eq_true_2 (r ∈ seqZ 0 32)); [reflexivity|].
    apply elem_of_seqZ. lia.
  - exact Hr.
  - apply Forall_seqZ. intros; lia.
Qed.

Lemma buildPeq_fold (f : Z -> Uint32Array) l (m0 : gmap Z Uint32Array) c :
  fold_left
    (fun m val => match m !! val with Some _ => m | None => <[val := f val]> m end)
    l m0 !! c
  = match m0 !! c with
    | Some a => Some a
    | None => if bool_decide (c ∈ l) then Some (f c) else None
    end.
Proof.
  revert m0. induction l as [|x l IH]; intros m0; cbn [fold_left].
  - rewrite bool_decide_eq_false_2 by (apply not_elem_of_nil).
    now destruct (m0 !! c).
  - rewrite IH. destruct (m0 !! x) as [a|] eqn:Ex.
    + destruct (m0 !! c) as [a'|] eqn:Ec; [reflexivity|].
      assert (x <> c) by congruence.
      rewrite (bool_decide_ext (c ∈ x :: l) (c ∈ l)); [reflexivity|].
      rewrite elem_of_cons. split; [intros [?|?]; [congruence|assumption] | auto].
    + destruct (decide (x = c)) as [->|Hne].
      * rewrite lookup_insert_eq, Ex.
        now rewrite bool_decide_eq_true_2 by (apply elem_of_cons; auto).
      * rewrite lookup_insert_ne by assumption.
        destruct (m0 !! c); [reflexivity|].
        rewrite (bool_decide_ext (c ∈ x :: l) (c ∈ l)); [reflexivity|].
      rewrite elem_of_cons. split; [intros [?|?]; [congruence|assumption] | auto].
Qed.

End Profile.

Section ProfileSingle.


Lemma bMax_covers n : 0 <= n -> n <= 32 * (ceilDiv32 n - 1 + 1).
Proof.
  intros H. unfold ceilDiv32.
  pose proof (Z.mul_succ_div_gt (n + 31) 32 ltac:(lia)). lia.
Qed.

Lemma isWord_toUint32 x : isWord (toUint32 x).
Proof. unfold isWord, toUint32. apply Z.mod_pos_bound. lia. Qed.

Lemma peqWord_isWord pattern val b : isWord (peqWord pattern val b).
Proof.
  unfold peqWord.
  assert (forall rs w, isWord w ->
            isWord (fold_left
              (fun word r =>
                 let idx := b * 32 + r in
                 if len pattern <=? idx then word
                 else if bool_decide (charCodeAt pattern idx = Some val)
                      then toUint32 (bor word (shl 1 r))
                      else word) rs w)) as H.
  { induction rs as [|r rs IH]; intros w Hw; cbn [fold_left]; [exact Hw|].
    apply IH. destruct (_ <=? _); [exact Hw|].
    destruct (bool_decide _); [apply isWord_toUint32 | exact Hw]. }
  apply H. unfold isWord. lia.
Qed.

End ProfileSingle.

(** X10.  The profile built for a pattern: for every symbol [c], block
    [b] and bit [r], the word looked up for [c] (the symbol's [peq] array,
    or [emptyPeq] when the pattern does not contain [c]) is a 32-bit word
    whose bit [r] is set exactly when the pattern has [c] at position
    [32*b + r]. *)
Theorem profile_marks_pattern_positions (pattern : JSString) (c b r : Z) :
  0 <= b <= bMax (newContext pattern) -> 0 <= r < 32 ->
  let ctx := newContext pattern in
  let word := get (lookupPeq ctx (newArray (bMax ctx + 1)) (Some c)) b in
  isWord word
  /\ Z.testbit word r
     = bool_decide (charCodeAt pattern (b * 32 + r) = Some c).
Proof.
  intros Hb Hr. simpl. unfold lookupPeq, newContext in *. simpl in *.
  unfold buildPeq.
  rewrite (buildPeq_fold (peqArray pattern (ceilDiv32 (len pattern) - 1))).
  rewrite lookup_empty.
  destruct (decide (c ∈ pattern)) as [Hin|Hout].
  - rewrite bool_decide_eq_true_2 by assumption. simpl.
    unfold peqArray. rewrite get_map_seqZ by lia.
    split; [apply peqWord_isWord | now apply peqWord_testbit].
  - rewrite bool_decide_eq_false_2 by assumption. simpl.
    rewrite get_newArray. split; [unfold isWord; lia|].
    rewrite Z.bits_0. symmetry. apply bool_decide_eq_false_2.
    intros E. apply Hout. eapply charCodeAt_elem, E.
Qed.

Lemma profile_marks_pattern_positions_witness :
  0 <= 0 <= bMax (newContext (codes "blind")) /\ 0 <= 1 < 32
  /\ Z.testbit
       (get (lookupPeq (newContext (codes "blind"))
               (newArray (bMax (newContext (codes "blind")) + 1)) (Some 108))
            0) 1 = true.
Proof.
  assert (0 <= 0 <= bMax (newContext (codes "blind"))) as Hb
    by (vm_compute; split; discriminate).
  assert (0 <= 1 < 32) as Hr by lia.
  split; [exact Hb|]. split; [exact Hr|].
  destruct (profile_marks_pattern_positions (codes "blind") 108 0 1 Hb Hr)
    as [_ H].
  rewrite H. reflexivity.
Defined.

Section CombinedProfile.

Variables (patterns : list JSString) (val : Z).

Lemma combined_inner idx r ps w i :
  0 <= r < 32 -> 0 <= i < 32 ->
  Z.testbit
    (fold_left
       (fun word pattern =>
          if (len pattern <=? idx)
             || bool_decide (charCodeAt pattern idx = Some val)
          then toUint32 (bor word (shl 1 r))
          else word) ps w) i
  = Z.testbit w i || ((i =? r) && existsb (accepts val idx) ps).
Proof.
  intros Hr Hi. revert w. induction ps as [|p ps IH]; intros w; cbn [fold_left existsb].
  - now rewrite andb_false_r, orb_false_r.
  - rewrite IH. unfold accepts at 2.
    destruct ((len p <=? idx) || bool_decide (charCodeAt p idx = Some val)).
    + rewrite setbit_testbit by lia. destruct (i =? r), (Z.testbit w i); reflexivity.
    + reflexivity.
Qed.

Lemma combined_outer maxLen b rs w i :
  0 <= i < 32 -> Forall (fun r => 0 <= r < 32) rs ->
  Z.testbit
    (fold_left
       (fun word r =>
          let idx := b * 32 + r in
          if maxLen <=? idx then word
          else
            fold_left
              (fun word pattern =>
                 if (len pattern <=? idx)
                    || bool_decide (charCodeAt pattern idx = Some val)
                 then toUint32 (bor word (shl 1 r))
                 else word)
              patterns word) rs w) i
  = Z.testbit w i
    || (bool_decide (i ∈ rs)
        && ((b * 32 + i <? maxLen) && existsb (accepts val (b * 32 + i)) patterns)).
Proof.
  intros Hi Hrs. revert w. induction Hrs as [|r rs Hr Hrs IH]; intros w; cbn [fold_left].
  - rewrite bool_decide_eq_false_2 by (apply not_elem_of_nil).
    now rewrite orb_false_r.
  - rewrite IH. clear IH.
    assert (Z.testbit
              (if maxLen <=? b * 32 + r then w
               else fold_left
                      (fun word pattern =>
                         if (len pattern <=? b * 32 + r)
                            || bool_decide (charCodeAt pattern (b * 32 + r) = Some val)
                         then toUint32 (bor word (shl 1 r)) else word)
                      patterns w) i
            = Z.testbit w i
              || ((i =? r) && ((b * 32 + r <? maxLen)
                               && existsb (accepts val (b * 32 + r)) patterns))) as ->.
    { destruct (Z.leb_spec maxLen (b * 32 + r)).
      - destruct (Z.ltb_spec (b * 32 + r) maxLen); [lia|].
        now rewrite andb_false_r, orb_false_r.
      - destruct (Z.ltb_spec (b * 32 + r) maxLen); [|lia].
        now rewrite combined_inner by lia. }
    destruct (Z.eqb_spec i r) as [->|Hne].
    + rewrite (bool_decide_eq_true_2 (r ∈ r :: rs)) by (apply elem_of_cons; auto).
      cbn [andb].
      destruct (Z.testbit w r), ((b * 32 + r <? maxLen) && _), (bool_decide (r ∈ rs));
        reflexivity.
    + cbn [andb]. rewrite orb_false_r. f_equal. f_equal.
      apply bool_decide_ext. rewrite elem_of_cons. tauto.
Qed.

Lemma combinedPeqWord_testbit maxLen b r :
  0 <= r < 32 ->
  Z.testbit (combinedPeqWord patterns maxLen val b) r
  = (b * 32 + r <? maxLen) && existsb (accepts val (b * 32 + r)) patterns.
Proof.
  intros Hr. unfold combinedPeqWord. rewrite combined_outer.
  - rewrite Z.bits_0, orb_false_l.
    rewrite (bool_decide_eq_true_2 (r ∈ seqZ 0 32)); [reflexivity|].
    apply elem_of_seqZ. lia.
  - exact Hr.
  - apply Forall_seqZ. intros; lia.
Qed.

End CombinedProfile.

Section EmptyProfile.

Lemma emptyPeq_fold n idxs e b r :
  len e = n -> 0 <= b < n -> 0 <= r < 32 ->
  Forall (fun i => 0 <= i < 32 * n) idxs ->
  Z.testbit
    (get (fold_left
            (fun e i =>
               let b := i / 32 in
               let r := Z.rem i 32 in
               set e b (bor (get e b) (shl 1 r))) idxs e) b) r
  = Z.testbit (get e b) r || bool_decide (b * 32 + r ∈ idxs).
Proof.
  intros Hn Hb Hr His. revert e Hn.
  induction His as [|i idxs Hi His IH]; intros e Hn; cbn [fold_left].
  - rewrite bool_decide_eq_false_2 by (apply not_elem_of_nil).
    now rewrite orb_false_r.
  - rewrite IH by (now rewrite len_set). clear IH.
    rewrite Z.rem_mod_nonneg by lia.
    pose proof (Z.div_mod i 32 ltac:(lia)) as Hdm.
    pose proof (Z.mod_pos_bound i 32 ltac:(lia)) as Hm.
    assert (0 <= i / 32 < n) as Hq.
    { split; [apply Z.div_pos; lia | apply Z.div_lt_upper_bound; lia]. }
    destruct (Z.eq_dec (i / 32) b) as [Hbi|Hbi].
    + rewrite Hbi. rewrite get_set_same by lia.
      rewrite setbit_testbit by lia.
      rewrite <- orb_assoc. f_equal.
      destruct (Z.eqb_spec r (i mod 32)) as [Hri|Hri].
      * rewrite orb_true_l. symmetry. apply bool_decide_eq_true_2.
        apply elem_of_cons. left. lia.
      * rewrite orb_false_l. apply bool_decide_ext. rewrite elem_of_cons.
        split; [auto|]. intros [E|E]; [lia | exact E].
    + rewrite get_set_other by assumption. f_equal.
      apply bool_decide_ext. rewrite elem_of_cons.
      split; [auto|]. intros [E|E]; [|exact E].
      exfalso. apply Hbi. subst i.
      rewrite Z.div_add_l by lia. rewrite Z.div_small; lia.
Qed.

Lemma fold_min_le r x0 x :
  fold_left Z.min r x0 <= x <-> x0 <= x \/ Exists (fun y => y <= x) r.
Proof.
  revert x0. induction r as [|a r IH]; intros x0; cbn [fold_left].
  - rewrite Exists_nil. tauto.
  - rewrite IH, Exists_cons.
    assert (Z.min x0 a <= x <-> x0 <= x \/ a <= x) as -> by lia. tauto.
Qed.

Lemma fold_min_lower r x0 lo :
  lo <= x0 -> Forall (fun y => lo <= y) r -> lo <= fold_left Z.min r x0.
Proof.
  revert x0. induction r as [|a r IH]; intros x0 H0 Hr; cbn [fold_left]; [exact H0|].
  inversion Hr; subst. apply IH; [lia | assumption].
Qed.

Lemma minimum_len_nonneg (patterns : list JSString) :
  0 <= minimum (map len patterns).
Proof.
  destruct patterns as [|p ps]; cbn [map minimum]; [lia|].
  apply fold_min_lower; [unfold len; lia|].
  apply Forall_forall. intros y Hy.
  rewrite in_map_iff in Hy. destruct Hy as (q & <- & _).
  unfold len; lia.
Qed.

Lemma minimum_len_le (patterns : list JSString) idx :
  patterns <> [] ->
  (minimum (map len patterns) <=? idx)
  = existsb (fun p => len p <=? idx) patterns.
Proof.
  intros Hne. destruct patterns as [|p ps]; [congruence|].
  cbn [map minimum existsb].
  apply eq_iff_eq_true. rewrite Z.leb_le, fold_min_le, orb_true_iff, Z.leb_le.
  rewrite existsb_exists, Exists_exists.
  split; (intros [H|H]; [left; exact H | right]).
  - destruct H as (y & Hy & Hle).
    rewrite in_map_iff in Hy. destruct Hy as (q & <- & Hq).
    exists q. split; [exact Hq | now apply Z.leb_le].
  - destruct H as (q & Hq & Hle). exists (len q).
    split; [apply in_map; exact Hq | now apply Z.leb_le].
Qed.

End EmptyProfile.

Lemma accepts_absent patterns c idx :
  c ∉ concat patterns ->
  existsb (accepts c idx) patterns = existsb (fun p => len p <=? idx) patterns.
Proof.
  intros Hout. induction patterns as [|p ps IH]; cbn [existsb]; [reflexivity|].
  rewrite IH.
  - f_equal. unfold accepts. rewrite bool_decide_eq_false_2; [apply orb_false_r|].
    intros E. apply Hout. cbn [concat]. apply elem_of_app. left.
    eapply charCodeAt_elem, E.
  - intros H. apply Hout. cbn [concat]. apply elem_of_app. now right.
Qed.

(** X11.  The profile of [findMatchRegions]: for every symbol [c], also
    one that occurs in no pattern and falls back to [emptyPeq], bit [r] of
    block [b] is set exactly when position [idx = 32*b + r] is below the
    longest pattern's length and some pattern has ended before [idx] or
    has [c] at [idx]. *)
Theorem combined_profile_superimposes (patterns : list JSString) (c b r : Z) :
  patterns <> [] ->
  let maxLen := maximum (map len patterns) in
  let minLen := minimum (map len patterns) in
  let bMax := ceilDiv32 maxLen - 1 in
  0 <= b <= bMax -> 0 <= r < 32 ->
  let word :=
    get (default (buildEmptyPeq minLen maxLen bMax)
                 (buildCombinedPeq patterns maxLen bMax !! c)) b in
  Z.testbit word r
  = (b * 32 + r <? maxLen) && existsb (accepts c (b * 32 + r)) patterns.
Proof.
  intros Hne maxLen minLen bMax Hb Hr. simpl.
  unfold buildCombinedPeq.
  rewrite (buildPeq_fold (combinedPeqArray patterns maxLen bMax)), lookup_empty.
  destruct (decide (c ∈ concat patterns)) as [Hin|Hout].
  - rewrite bool_decide_eq_true_2 by assumption. simpl.
    unfold combinedPeqArray. rewrite get_map_seqZ by lia.
    now apply combinedPeqWord_testbit.
  - rewrite bool_decide_eq_false_2 by assumption. simpl.
    unfold buildEmptyPeq.
    pose proof (minimum_len_nonneg patterns) as Hmin. fold minLen in Hmin.
    pose proof (maximum_len_nonneg patterns) as Hmax. fold maxLen in Hmax.
    pose proof (bMax_covers maxLen Hmax) as Hcov. fold bMax in Hcov.
    rewrite (emptyPeq_fold (bMax + 1)); try lia.
    + rewrite get_newArray, Z.bits_0, orb_false_l.
      rewrite accepts_absent by assumption.
      rewrite <- (minimum_len_le patterns) by assumption. fold minLen.
      destruct (Z.ltb_spec (b * 32 + r) maxLen), (Z.leb_spec minLen (b * 32 + r));
        cbn [andb];
        [apply bool_decide_eq_true_2 | apply bool_decide_eq_false_2 ..];
        rewrite elem_of_seqZ; lia.
    + apply len_newArray. lia.
    + apply Forall_seqZ. intros i Hi. lia.
Qed.

Lemma combined_profile_superimposes_witness :
  let patterns := [codes "one"; codes "fivve"] in
  patterns <> [] /\ 0 <= 0 <= ceilDiv32 5 - 1 /\ 0 <= 3 < 32
  /\ Z.testbit
       (get (default (buildEmptyPeq 3 5 0)
                     (buildCombinedPeq patterns 5 0 !! 120)) 0) 3 = true.
Proof.
  assert ([codes "one"; codes "fivve"] <> []) as Hne by discriminate.
  assert (0 <= 0 <= ceilDiv32 5 - 1) as Hb by (vm_compute; split; discriminate).
  assert (0 <= 3 < 32) as Hr by lia.
  split; [exact Hne|]. split; [exact Hb|]. split; [exact Hr|].
  exact (combined_profile_superimposes [codes "one"; codes "fivve"] 120 0 3
           Hne Hb Hr).
Defined.

Section LastRow.

Lemma toUint32_toInt32 x : toUint32 (toInt32 x) = toUint32 x.
Proof. apply (eqm_toInt32 x x), eqm_refl. Qed.

Lemma toUint32_shl_one r : 0 <= r < 32 -> toUint32 (shl 1 r) = 2 ^ r.
Proof.
  intros Hr. unfold shl. rewrite toUint32_toInt32.
  change (toInt32 1) with 1. rewrite Z.mod_small by lia.
  rewrite Z.shiftl_1_l. unfold toUint32. apply Z.mod_small.
  split; [apply Z.pow_nonneg; lia | apply Z.pow_lt_mono_r; lia].
Qed.

Lemma len_fill a v : len (fill a v) = len a.
Proof. unfold len, fill. now rewrite length_map. Qed.

Lemma get_fill a v i : 0 <= i < len a -> get (fill a v) i = toUint32 v.
Proof.
  unfold len, get, fill. intros H. destruct (Z.ltb_spec i 0); [lia|].
  destruct (lookup_lt_is_Some_2 a (Z.to_nat i) ltac:(lia)) as [x Hx].
  pose proof (list_lookup_fmap (fun _ => toUint32 v) a (Z.to_nat i)) as E.
  rewrite Hx in E. simpl in E.
  change ((fun _ => toUint32 v) <$> a) with (map (fun _ : Z => toUint32 v) a) in E.
  unfold Uint32Array in *. now rewrite E.
Qed.

Lemma bMax_last_row n : 1 <= n -> ceilDiv32 n - 1 = (n - 1) / 32.
Proof.
  intros H. unfold ceilDiv32.
  replace (n + 31) with ((n - 1) + 1 * 32) by lia.
  rewrite Z.div_add by lia. lia.
Qed.

(** X12.  The last-row masks of a non-empty pattern have one bit each:
    bit 31 for every block below the last, and for the last block the bit
    of the pattern's last row, [(len - 1) mod 32], which is row [len - 1]
    of the whole pattern. *)
Theorem lastRowMask_marks_last_row (pattern : JSString) (b : Z) :
  1 <= len pattern -> 0 <= b <= bMax (newContext pattern) ->
  get (lastRowMask (newContext pattern)) b
  = (if b =? bMax (newContext pattern)
     then 2 ^ ((len pattern - 1) mod 32) else 2 ^ 31)
  /\ bMax (newContext pattern) * 32 + (len pattern - 1) mod 32
     = len pattern - 1.
Proof.
  intros Hn Hb. unfold newContext in *. simpl in *.
  set (bm := ceilDiv32 (len pattern) - 1) in *.
  split.
  - unfold buildLastRowMask.
    destruct (Z.eqb_spec b bm) as [->|Hne].
    + rewrite get_set_same by (rewrite len_fill, len_newArray; lia).
      rewrite Z.rem_mod_nonneg by lia.
      apply toUint32_shl_one. apply Z.mod_pos_bound. lia.
    + rewrite get_set_other by congruence.
      rewrite get_fill by (rewrite len_newArray; lia).
      now rewrite toUint32_shl_one by lia.
  - unfold bm. rewrite bMax_last_row by lia.
    pose proof (Z.div_mod (len pattern - 1) 32 ltac:(lia)). lia.
Qed.

Lemma lastRowMask_marks_last_row_witness :
  1 <= len (codes "blind") /\ 0 <= 0 <= bMax (newContext (codes "blind"))
  /\ get (lastRowMask (newContext (codes "blind"))) 0 = 16.
Proof.
  assert (1 <= len (codes "blind")) as Hn by (vm_compute; discriminate).
  assert (0 <= 0 <= bMax (newContext (codes "blind"))) as Hb
    by (vm_compute; split; discriminate).
  split; [exact Hn|]. split; [exact Hb|].
  destruct (lastRowMask_marks_last_row (codes "blind") 0 Hn Hb) as [H _].
  rewrite H. reflexivity.
Defined.

End LastRow.

Section Window.

Lemma advanceBlock_lengths ctx peqA b hIn :
  let ctx' := snd (advanceBlock ctx peqA b hIn) in
  len (P ctx') = len (P ctx) /\ len (M ctx') = len (M ctx)
  /\ bMax ctx' = bMax ctx.
Proof.
  unfold advanceBlock. destruct (advanceWords _ _ _ _ _) as [[h p] m]. simpl.
  now rewrite !len_set.
Qed.

Lemma advanceActive_lengths ctx score peqA y :
  let '(ctx', score', _) := advanceActive ctx score peqA y in
  len (P ctx') = len (P ctx) /\ len (M ctx') = len (M ctx)
  /\ bMax ctx' = bMax ctx /\ len score' = len score.
Proof.
  unfold advanceActive. generalize 0 at 2. revert ctx score.
  induction (seqZ 0 (y + 1)) as [|b bs IH]; intros ctx score carry; cbn [fold_left].
  - auto.
  - unfold advanceActiveStep at 2.
    pose proof (advanceBlock_lengths ctx peqA b carry) as Hb.
    destruct (advanceBlock ctx peqA b carry) as [carry' ctx']. simpl in Hb.
    specialize (IH ctx' (set score b (get score b + carry')) carry').
    destruct (fold_left _ bs _) as [[ctx'' score''] carry''].
    rewrite len_set in IH. intuition congruence.
Qed.











End Window.



Section Counts.

Variables (text : JSString) (patLen : Z) (emptyPeq : Uint32Array).

Lemma reportMatch_countsOk st j : countsOk st -> countsOk (reportMatch st j).
Proof.
  intros (Hs & Hy & Hm). unfold reportMatch.
  destruct (_ && _); [|repeat split; assumption].
  repeat split; simpl; try assumption.
  apply Forall_app; split.
  - destruct (_ <? _); [constructor | exact Hm].
  - repeat constructor. simpl. now apply get_nonneg.
Qed.

Lemma endsStep_countsOk st j :
  countsOk st -> countsOk (endsStep text patLen emptyPeq st j).
Proof.
  intros (Hs & Hy & Hm). unfold endsStep.
  pose proof (column_invariant patLen emptyPeq (s_ctx st) (s_score st) (s_y st)
                (s_maxErrors st) (charCodeAt text j) Hs Hy) as Hc.
  destruct (column _ _ _ _ _ _ _) as [[ctx score] y].
  destruct Hc as (Hs' & Hy' & _).
  apply reportMatch_countsOk. repeat split; assumption.
Qed.

Lemma endsScan_countsOk js st :
  countsOk st -> countsOk (fold_left (endsStep text patLen emptyPeq) js st).
Proof.
  revert st. induction js as [|j js IH]; intros st H; cbn [fold_left]; [exact H|].
  now apply IH, endsStep_countsOk.
Qed.

Lemma scanRegion_countsOk st region :
  nonneg (s_score st) -> Forall (fun m => 0 <= m_errors m) (s_matches st) ->
  countsOk (scanRegion text patLen emptyPeq st region).
Proof.
  intros Hs Hm. unfold scanRegion. apply endsScan_countsOk.
  repeat split; simpl; [now apply resetScore_nonneg | unfold initialY; lia | exact Hm].
Qed.

Lemma regionsScan_countsOk rs st :
  nonneg (s_score st) -> Forall (fun m => 0 <= m_errors m) (s_matches st) ->
  Forall (fun m => 0 <= m_errors m)
         (s_matches (fold_left (scanRegion text patLen emptyPeq) rs st)).
Proof.
  revert st. induction rs as [|r rs IH]; intros st Hs Hm; cbn [fold_left];
    [exact Hm|].
  destruct (scanRegion_countsOk st r Hs Hm) as (Hs' & _ & Hm').
  now apply IH.
Qed.

(** With a negative threshold nothing is ever recorded. *)
Lemma reportMatch_negative st j :
  nonneg (s_score st) -> s_maxErrors st < 0 -> reportMatch st j = st.
Proof.
  intros Hs Hk. unfold reportMatch.
  pose proof (get_nonneg (s_score st) (s_y st) Hs).
  destruct (Z.leb_spec (get (s_score st) (s_y st)) (s_maxErrors st)); [lia|].
  now rewrite andb_false_r.
Qed.

Lemma endsStep_negative st j :
  countsOk st -> s_maxErrors st < 0 ->
  let st' := endsStep text patLen emptyPeq st j in
  s_maxErrors st' = s_maxErrors st /\ s_matches st' = s_matches st.
Proof.
  intros (Hs & Hy & Hm) Hk. unfold endsStep.
  pose proof (column_invariant patLen emptyPeq (s_ctx st) (s_score st) (s_y st)
                (s_maxErrors st) (charCodeAt text j) Hs Hy) as Hc.
  destruct (column _ _ _ _ _ _ _) as [[ctx score] y].
  destruct Hc as (Hs' & _ & _).
  rewrite reportMatch_negative by assumption. simpl. auto.
Qed.

Lemma endsScan_negative js st :
  countsOk st -> s_maxErrors st < 0 ->
  let st' := fold_left (endsStep text patLen emptyPeq) js st in
  s_maxErrors st' = s_maxErrors st /\ s_matches st' = s_matches st.
Proof.
  revert st. induction js as [|j js IH]; intros st H Hk; cbn [fold_left]; [auto|].
  destruct (endsStep_negative st j H Hk) as [Ek Em].
  destruct (IH (endsStep text patLen emptyPeq st j)) as [Ek' Em'].
  - now apply endsStep_countsOk.
  - lia.
  - simpl in *. split; congruence.
Qed.

Lemma regionsScan_negative rs st :
  nonneg (s_score st) -> s_matches st = [] -> s_maxErrors st < 0 ->
  s_matches (fold_left (scanRegion text patLen emptyPeq) rs st) = [].
Proof.
  revert st. induction rs as [|r rs IH]; intros st Hs Hm Hk; cbn [fold_left];
    [exact Hm|].
  assert (countsOk (mkScan (resetDeltas (s_ctx st) (initialY (s_maxErrors st)))
            (resetScore patLen (bMax (s_ctx st)) (s_score st)
               (initialY (s_maxErrors st)))
            (initialY (s_maxErrors st)) (s_maxErrors st) (s_matches st))) as Hc.
  { repeat split; simpl;
      [now apply resetScore_nonneg | unfold initialY; lia | rewrite Hm; constructor]. }
  destruct (endsScan_negative
              (seqZ (r_start r) (r_end r - r_start r)) _ Hc Hk) as [Ek Em].
  simpl in Ek, Em.
  apply IH.
  - apply (endsScan_countsOk _ _ Hc).
  - unfold scanRegion. rewrite Em. exact Hm.
  - unfold scanRegion. rewrite Ek. exact Hk.
Qed.

End Counts.

(** X4.  A negative budget finds nothing: [findMatchEnds], for any
    regions, and [search] return the empty list, because scores are never
    negative. *)
Theorem negative_budget_finds_nothing (text pattern : JSString) (k : Z)
  (regions : list Region) :
  k < 0 ->
  findMatchEndsIn text pattern k regions = []
  /\ search text pattern k = [].
Proof.
  intros Hk.
  assert (forall rs, findMatchEndsIn text pattern k rs = []) as H.
  { intros rs. unfold findMatchEndsIn. destruct (len pattern =? 0); [reflexivity|].
    apply regionsScan_negative; simpl; [apply newArray_nonneg | reflexivity | lia]. }
  split; [apply H|]. unfold search, findMatchEnds. now rewrite H.
Qed.

Lemma negative_budget_finds_nothing_witness :
  -1 < 0 /\ search (codes "foo") (codes "foo") (-1) = [].
Proof.
  split; [lia|].
  exact (proj2 (negative_budget_finds_nothing (codes "foo") (codes "foo")
                  (-1) [] ltac:(lia))).
Defined.

Section EndPredicates.

Variables (text : JSString) (patLen : Z) (emptyPeq : Uint32Array).
Variable Q : Z -> Prop.

Lemma reportMatch_endQ st j :
  Q (j + 1) -> Forall (fun m => Q (m_end m)) (s_matches st) ->
  Forall (fun m => Q (m_end m)) (s_matches (reportMatch st j)).
Proof.
  intros Hj H. unfold reportMatch. destruct (_ && _); [|exact H]. simpl.
  apply Forall_app; split.
  - destruct (_ <? _); [constructor | exact H].
  - repeat constructor. exact Hj.
Qed.

Lemma endsScan_endQ js st :
  Forall (fun j => Q (j + 1)) js ->
  Forall (fun m => Q (m_end m)) (s_matches st) ->
  Forall (fun m => Q (m_end m))
         (s_matches (fold_left (endsStep text patLen emptyPeq) js st)).
Proof.
  revert st. induction js as [|j js IH]; intros st Hjs H; cbn [fold_left];
    [exact H|].
  inversion Hjs; subst. apply IH; [assumption|].
  unfold endsStep. destruct (column _ _ _ _ _ _ _) as [[ctx score] y].
  now apply reportMatch_endQ.
Qed.

End EndPredicates.

Lemma findMatchEndsIn_inside text pattern k rs :
  Forall (fun m => exists r, r ∈ rs /\ insideRegion (m_end m) r)
         (findMatchEndsIn text pattern k rs).
Proof.
  unfold findMatchEndsIn. destruct (len pattern =? 0); [constructor|].
  set (Q := fun e => exists r, r ∈ rs /\ insideRegion e r).
  assert (forall rs' st, rs' ⊆ rs ->
            Forall (fun m => Q (m_end m)) (s_matches st) ->
            Forall (fun m => Q (m_end m))
              (s_matches
                 (fold_left
                    (scanRegion text (len pattern)
                       (newArray (bMax (newContext pattern) + 1))) rs' st)))
    as H.
  { induction rs' as [|r rs' IH]; intros st Hsub Hst; cbn [fold_left];
      [exact Hst|].
    apply IH; [intros x Hx; apply Hsub; now right|].
    unfold scanRegion. apply (endsScan_endQ _ _ _ Q); [|exact Hst].
    apply Forall_seqZ. intros j Hj. exists r.
    split; [apply Hsub; now left | unfold insideRegion; lia]. }
  apply H; [reflexivity | constructor].
Qed.

Section SortedEnds.

Lemma endsIncrease_nil : endsIncrease [].
Proof. intros i j m m' _ H. discriminate. Qed.

Lemma endsIncrease_snoc ms m :
  endsIncrease ms -> Forall (fun x => m_end x < m_end m) ms ->
  endsIncrease (ms ++ [m]).
Proof.
  intros Hs Hlt i j a a' Hij Ha Ha'.
  assert (j < length ms + 1)%nat as Hj.
  { apply lookup_lt_Some in Ha'. rewrite length_app in Ha'. simpl in Ha'. lia. }
  rewrite lookup_app_l in Ha by lia.
  destruct (decide (j < length ms)%nat) as [Hjl|Hjl].
  - rewrite lookup_app_l in Ha' by lia. now apply (Hs i j).
  - rewrite lookup_app_r in Ha' by lia.
    replace (j - length ms)%nat with 0%nat in Ha' by lia.
    simpl in Ha'. injection Ha' as <-.
    exact (Forall_lookup_1 _ _ _ _ Hlt Ha).
Qed.

Variables (text : JSString) (patLen : Z) (emptyPeq : Uint32Array).

Lemma reportMatch_sorted st j :
  endsIncrease (s_matches st) ->
  Forall (fun m => m_end m <= j) (s_matches st) ->
  let st' := reportMatch st j in
  endsIncrease (s_matches st')
  /\ Forall (fun m => m_end m <= j + 1) (s_matches st').
Proof.
  intros Hs Hle. unfold reportMatch. destruct (_ && _); simpl.
  - destruct (_ <? _).
    + split; [apply (endsIncrease_snoc []); [apply endsIncrease_nil | constructor]|].
      repeat constructor. simpl. lia.
    + split.
      * apply endsIncrease_snoc; [exact Hs|].
        eapply Forall_impl; [|exact Hle]. simpl. intros; lia.
      * apply Forall_app; split; [|repeat constructor; simpl; lia].
        eapply Forall_impl; [|exact Hle]. simpl. intros; lia.
  - split; [exact Hs|]. eapply Forall_impl; [|exact Hle]. simpl. intros; lia.
Qed.

Lemma endsScan_sorted a (n : nat) st :
  endsIncrease (s_matches st) ->
  Forall (fun m => m_end m <= a) (s_matches st) ->
  let st' :=
    fold_left (endsStep text patLen emptyPeq) (seqZ a (Z.of_nat n)) st in
  endsIncrease (s_matches st')
  /\ Forall (fun m => m_end m <= a + Z.of_nat n) (s_matches st').
Proof.
  intros Hs Hle. cbv zeta. induction n as [|n IH].
  - simpl. split; [exact Hs|]. eapply Forall_impl; [|exact Hle]. simpl. intros; lia.
  - rewrite seqZ_S, fold_left_app. cbn [fold_left].
    destruct IH as [IH1 IH2].
    unfold endsStep at 1 3.
    destruct (column _ _ _ _ _ _ _) as [[ctx score] y].
    replace (a + Z.of_nat (S n)) with (a + Z.of_nat n + 1) by lia.
    apply (reportMatch_sorted (mkScan ctx score y _ _) (a + Z.of_nat n));
      assumption.
Qed.

Lemma seqZ_to_nat a n : seqZ a n = seqZ a (Z.of_nat (Z.to_nat n)).
Proof. unfold seqZ. now rewrite Nat2Z.id. Qed.

Lemma scanRegion_sorted st r hi :
  endsIncrease (s_matches st) ->
  Forall (fun m => m_end m <= hi) (s_matches st) ->
  hi <= r_start r -> r_start r <= r_end r ->
  let st' := scanRegion text patLen emptyPeq st r in
  endsIncrease (s_matches st')
  /\ Forall (fun m => m_end m <= r_end r) (s_matches st').
Proof.
  intros Hs Hle Hhi Hr. unfold scanRegion. rewrite seqZ_to_nat.
  match goal with
  | |- context [fold_left _ (seqZ ?a (Z.of_nat ?n)) ?s] =>
      pose proof (endsScan_sorted a n s) as H
  end.
  simpl in H. replace (r_start r + Z.of_nat (Z.to_nat (r_end r - r_start r)))
    with (r_end r) in H by lia.
  apply H; [exact Hs|]. eapply Forall_impl; [|exact Hle]. simpl. intros; lia.
Qed.

Lemma separated_tail r rs : separated (r :: rs) -> separated rs.
Proof. intros H i a a' Ha Ha'. exact (H (S i) a a' Ha Ha'). Qed.

Lemma regionsScan_sorted rs st hi :
  endsIncrease (s_matches st) ->
  Forall (fun m => m_end m <= hi) (s_matches st) ->
  (forall r, rs !! 0%nat = Some r -> hi <= r_start r) ->
  separated rs -> Forall (fun r => r_start r <= r_end r) rs ->
  endsIncrease
    (s_matches (fold_left (scanRegion text patLen emptyPeq) rs st)).
Proof.
  revert st hi. induction rs as [|r rs IH]; intros st hi Hs Hle Hhd Hsep Hwf;
    cbn [fold_left]; [exact Hs|].
  inversion Hwf as [|? ? Hr Hwf']; subst.
  destruct (scanRegion_sorted st r hi Hs Hle (Hhd r eq_refl) Hr) as [Hs' Hle'].
  apply (IH _ (r_end r)); try assumption.
  - intros r' Hr'. pose proof (Hsep 0%nat r r' eq_refl Hr'). lia.
  - now apply separated_tail in Hsep.
Qed.

End SortedEnds.

Lemma findMatchEndsIn_sorted text pattern k rs :
  separated rs -> Forall (fun r => 0 <= r_start r <= r_end r) rs ->
  endsIncrease (findMatchEndsIn text pattern k rs).
Proof.
  intros Hsep Hwf. unfold findMatchEndsIn.
  destruct (len pattern =? 0); [apply endsIncrease_nil|].
  apply (regionsScan_sorted _ _ _ _ _ 0); simpl.
  - apply endsIncrease_nil.
  - constructor.
  - intros r Hr. destruct rs as [|r0 rs']; [discriminate|].
    inversion Hwf; subst. injection Hr as <-. lia.
  - exact Hsep.
  - eapply Forall_impl; [|exact Hwf]. simpl. intros; lia.
Qed.

Lemma endsIncrease_map (f : Match -> Match) ms :
  (forall m, m_end (f m) = m_end m) ->
  endsIncrease ms -> endsIncrease (map f ms).
Proof.
  intros Hf Hs i j a a' Hij Ha Ha'.
  change (map f ms) with (f <$> ms) in Ha, Ha'.
  rewrite list_lookup_fmap in Ha, Ha'.
  destruct (ms !! i) as [m|] eqn:Ei; [|discriminate].
  destruct (ms !! j) as [m'|] eqn:Ej; [|discriminate].
  simpl in Ha, Ha'. injection Ha as <-. injection Ha' as <-.
  rewrite !Hf. now apply (Hs i j).
Qed.

Section Resolved.

Lemma resolveStart_span text pattern m :
  0 < m_end m -> 0 <= m_errors m ->
  let m' := resolveStart text pattern m in
  0 <= m_start m' <= m_end m
  /\ m_end m - m_start m' <= len pattern + m_errors m
  /\ m_end m' = m_end m /\ m_errors m' = m_errors m.
Proof.
  intros He Herr. unfold resolveStart. simpl.
  set (minStart := Z.max 0 (m_end m - len pattern - m_errors m)).
  set (textRev := reverse (slice text minStart (m_end m))).
  pose proof (min_start_bounds (m_end m) (len textRev)
                (findMatchEnds textRev (reverse pattern) (m_errors m))
                (m_end m) (findMatchEnds_ends _ _ _)) as Hb.
  simpl in Hb.
  assert (len textRev <= Z.max 0 (m_end m - minStart)) as HL.
  { unfold textRev. rewrite len_reverse. apply len_slice. }
  assert (0 <= len pattern) by (unfold len; lia).
  assert (0 <= minStart) by (unfold minStart; lia).
  assert (m_end m - len pattern - m_errors m <= minStart) by (unfold minStart; lia).
  repeat split; lia.
Qed.

Lemma findMatchEndsIn_errors text pattern k rs :
  Forall (fun m => 0 <= m_errors m <= Z.min k (len pattern))
         (findMatchEndsIn text pattern k rs)
  /\ (forall m m', m ∈ findMatchEndsIn text pattern k rs ->
        m' ∈ findMatchEndsIn text pattern k rs -> m_errors m = m_errors m').
Proof.
  destruct (findMatchEndsIn_ratchet text pattern k rs) as (k' & Hk & Hr).
  assert (Forall (fun m => 0 <= m_errors m) (findMatchEndsIn text pattern k rs))
    as Hn.
  { unfold findMatchEndsIn. destruct (len pattern =? 0); [constructor|].
    apply regionsScan_countsOk; simpl; [apply newArray_nonneg | constructor]. }
  split.
  - apply Forall_forall. intros m Hm.
    rewrite Forall_forall in Hr, Hn. specialize (Hr m Hm). specialize (Hn m Hm). lia.
  - intros m m' Hm Hm'. rewrite Forall_forall in Hr.
    rewrite list_elem_of_In in Hm, Hm'.
    rewrite (Hr m Hm), (Hr m' Hm'). reflexivity.
Qed.

Lemma resolved_matches text pattern k rs :
  separated rs -> Forall (fun r => 0 <= r_start r <= r_end r /\ r_end r <= len text) rs ->
  let ms := findMatchStarts text pattern (findMatchEndsIn text pattern k rs) in
  Forall (fun m => matchOk text pattern k m
                   /\ exists r, r ∈ rs /\ insideRegion (m_end m) r) ms
  /\ endsIncrease ms
  /\ (forall m m', m ∈ ms -> m' ∈ ms -> m_errors m = m_errors m').
Proof.
  intros Hsep Hwf. simpl.
  pose proof (findMatchEndsIn_inside text pattern k rs) as Hin.
  destruct (findMatchEndsIn_errors text pattern k rs) as [Herr Huni].
  assert (endsIncrease (findMatchEndsIn text pattern k rs)) as Hsort.
  { apply findMatchEndsIn_sorted; [exact Hsep|].
    eapply Forall_impl; [|exact Hwf]. simpl. intros; lia. }
  unfold findMatchStarts. split; [|split].
  - apply Forall_forall. intros m' Hm'.
    apply in_map_iff in Hm' as (m & <- & Hm).
    rewrite Forall_forall in Hin, Herr.
    destruct (Hin m Hm) as (r & Hr & Hins). specialize (Herr m Hm).
    assert (0 <= r_start r <= r_end r /\ r_end r <= len text) as Hrw.
    { rewrite Forall_forall in Hwf. apply Hwf. now apply list_elem_of_In. }
    unfold insideRegion in Hins.
    destruct (resolveStart_span text pattern m ltac:(lia) ltac:(lia))
      as (Hs & Hspan & Hend & Herrm).
    split.
    + unfold matchOk. rewrite Hend, Herrm. repeat split; lia.
    + exists r. rewrite Hend. split; assumption.
  - apply endsIncrease_map; [reflexivity | exact Hsort].
  - intros m1 m2 H1 H2.
    rewrite list_elem_of_In in H1, H2.
    apply in_map_iff in H1 as (a & <- & Ha). apply in_map_iff in H2 as (b & <- & Hb).
    simpl. apply Huni; now apply list_elem_of_In.
Qed.

End Resolved.

Lemma whole_text_region text :
  separated [mkRegion 0 (len text)]
  /\ Forall (fun r => 0 <= r_start r <= r_end r /\ r_end r <= len text)
            [mkRegion 0 (len text)].
Proof.
  split; [apply separated_singleton|].
  repeat constructor; simpl; unfold len; lia.
Qed.

(** X1.  Every match of [search] satisfies [0 <= start <= end],
    [1 <= end <= len text], [end - start <= len pattern + errors] and
    [0 <= errors <= min k (len pattern)]. *)
Theorem search_matches_well_formed (text pattern : JSString) (k : Z) :
  Forall (matchOk text pattern k) (search text pattern k).
Proof.
  destruct (whole_text_region text) as [Hsep Hwf].
  destruct (resolved_matches text pattern k _ Hsep Hwf) as (H & _ & _).
  unfold search, findMatchEnds.
  eapply Forall_impl; [|exact H]. simpl. intros m [Hm _]. exact Hm.
Qed.

(** X2.  All the matches that one call of [search] returns carry the
    same error count. *)
Theorem search_reports_one_error_count (text pattern : JSString) (k : Z)
  (m m' : Match) :
  m ∈ search text pattern k -> m' ∈ search text pattern k ->
  m_errors m = m_errors m'.
Proof.
  destruct (whole_text_region text) as [Hsep Hwf].
  destruct (resolved_matches text pattern k _ Hsep Hwf) as (_ & _ & H).
  apply H.
Qed.

Lemma search_reports_one_error_count_witness :
  let found := search (codes "three blind mice") (codes "thrae") 5 in
  mkMatch 0 4 1 ∈ found /\ mkMatch 0 5 1 ∈ found
  /\ m_errors (mkMatch 0 4 1) = m_errors (mkMatch 0 5 1).
Proof.
  assert (search (codes "three blind mice") (codes "thrae") 5
          = [mkMatch 0 4 1; mkMatch 0 5 1]) as E by (vm_compute; reflexivity).
  assert (mkMatch 0 4 1 ∈ search (codes "three blind mice") (codes "thrae") 5)
    as H1 by (rewrite E; apply list_elem_of_here).
  assert (mkMatch 0 5 1 ∈ search (codes "three blind mice") (codes "thrae") 5)
    as H2 by (rewrite E; apply list_elem_of_further, list_elem_of_here).
  split; [exact H1|]. split; [exact H2|].
  exact (search_reports_one_error_count _ _ _ _ _ H1 H2).
Defined.

(** X3.  The matches of [search] are listed by strictly increasing end
    offset; no end offset is reported twice. *)
Theorem search_ends_increase (text pattern : JSString) (k : Z) :
  endsIncrease (search text pattern k).
Proof.
  destruct (whole_text_region text) as [Hsep Hwf].
  destruct (resolved_matches text pattern k _ Hsep Hwf) as (_ & H & _).
  exact H.
Qed.

(** X6.  [multiSearch] returns one list per configuration, in order.
    Every match of the list of configuration [cfg] is well formed for that
    pattern and budget and ends inside one of the returned regions; the
    list is ordered by strictly increasing end offset and carries a single
    error count. *)
Theorem multiSearch_results_well_formed (text : JSString)
  (configs : list PatternConfig) :
  let result := multiSearch text configs in
  length (matches result) = length configs
  /\ forall (i : nat) cfg ms,
       configs !! i = Some cfg -> matches result !! i = Some ms ->
       Forall (fun m => matchOk text (pattern cfg) (maxErrors cfg) m
                        /\ exists r, r ∈ regions result
                                     /\ insideRegion (m_end m) r) ms
       /\ endsIncrease ms
       /\ (forall m m', m ∈ ms -> m' ∈ ms -> m_errors m = m_errors m').
Proof.
  simpl. split; [unfold multiSearch; simpl; apply length_map|].
  intros i cfg ms Hcfg Hms. unfold multiSearch in *. simpl in *.
  match type of Hms with
  | map ?f configs !! i = _ =>
      pose proof (list_lookup_fmap f configs i) as E;
      change (f <$> configs) with (map f configs) in E
  end.
  rewrite E, Hcfg in Hms. simpl in Hms. injection Hms as <-.
  apply resolved_matches.
  - apply findMatchRegions_separated.
  - pose proof (findMatchRegions_within text (map pattern configs)
                  (fold_left (fun n p => Z.max (maxErrors p) n) configs 0)) as H.
    eapply Forall_impl; [|exact H]. simpl. intros; lia.
Qed.

Section SingleBlock.

Lemma column_single_block patLen emptyPeq ctx score k ch :
  bMax ctx = 0 ->
  column patLen emptyPeq ctx score 0 k ch
  = (let '(ctx', score', _) :=
       advanceActive ctx score (lookupPeq ctx emptyPeq ch) 0 in
     (ctx', score', 0)).
Proof.
  intros Hb. unfold column.
  pose proof (advanceActive_lengths ctx score (lookupPeq ctx emptyPeq ch) 0) as Ha.
  destruct (advanceActive _ _ _ _) as [[ctx1 score1] carry].
  destruct Ha as (_ & _ & Hb1 & _).
  rewrite Hb1, Hb. change (0 <? 0) with false.
  now rewrite andb_false_r.
Qed.

Lemma filter_none (k : Z) (L : list Match) :
  Forall (fun m => m_errors m <> k) L ->
  filter (fun m => m_errors m = k) L = [].
Proof.
  induction 1 as [|m L Hm HL IH]; [reflexivity|].
  now rewrite filter_cons_False.
Qed.

Lemma reportMatch_leastCost k0 st st1 j :
  leastCost k0 st st1 ->
  leastCost k0 (reportMatch st j) (Rev1.reportMatch st1 j).
Proof.
  intros (Ec & Es & Hy & Hy1 & Hb & Hk1 & Hk & Hm & Hlow & Hatt).
  unfold reportMatch, Rev1.reportMatch.
  rewrite <- Ec, <- Es, Hy, Hy1, Hb, Hk1. change (0 =? 0) with true. cbn [andb].
  set (s := get (s_score st) 0).
  destruct (Z.leb_spec s k0) as [Hsk0|Hsk0];
    destruct (Z.leb_spec s (s_maxErrors st)) as [Hsk|Hsk]; try lia.
  - (* recorded by both *)
    unfold leastCost; cbn [s_ctx s_score s_y s_maxErrors s_matches].
    repeat split; try assumption; try lia.
    + rewrite list.filter_app.
      destruct (Z.ltb_spec s (s_maxErrors st)) as [Hlt|Hge].
      * rewrite filter_none.
        -- rewrite filter_cons_True by reflexivity. reflexivity.
        -- eapply Forall_impl; [|exact Hlow]. simpl. intros; lia.
      * assert (s = s_maxErrors st) as E by lia.
        rewrite filter_cons_True by reflexivity.
        rewrite Hm, E. reflexivity.
    + apply Forall_app; split; [|repeat constructor; simpl; lia].
      eapply Forall_impl; [|exact Hlow]. simpl. intros; lia.
    + right. apply Exists_app. right. constructor. reflexivity.
  - (* recorded by the earlier revision only *)
    unfold leastCost; cbn [s_ctx s_score s_y s_maxErrors s_matches].
    repeat split; try assumption; try lia.
    + rewrite list.filter_app, filter_cons_False by (simpl; lia).
      cbn [filter]. rewrite app_nil_r. exact Hm.
    + apply Forall_app; split; [exact Hlow | repeat constructor; simpl; lia].
    + right. destruct Hatt as [[_ E]|Hex]; [lia|].
      apply Exists_app. now left.
  - (* recorded by neither *)
    unfold leastCost. repeat split; assumption.
Qed.

Lemma endsStep_leastCost text patLen emptyPeq k0 st st1 j :
  leastCost k0 st st1 ->
  leastCost k0 (endsStep text patLen emptyPeq st j)
               (Rev1.endsStep text patLen emptyPeq st1 j).
Proof.
  intros H. pose proof H as (Ec & Es & Hy & Hy1 & Hb & Hk1 & Hk & Hm & Hlow & Hatt).
  unfold endsStep, Rev1.endsStep.
  rewrite <- Ec, <- Es, Hy, Hy1, !column_single_block by assumption.
  pose proof (advanceActive_lengths (s_ctx st) (s_score st)
                (lookupPeq (s_ctx st) emptyPeq (charCodeAt text j)) 0) as Ha.
  destruct (advanceActive _ _ _ _) as [[ctx1 score1] carry].
  destruct Ha as (_ & _ & Hb1 & _).
  apply reportMatch_leastCost.
  unfold leastCost; cbn [s_ctx s_score s_y s_maxErrors s_matches].
  repeat split; try assumption; congruence.
Qed.

Lemma endsScan_leastCost text patLen emptyPeq k0 js st st1 :
  leastCost k0 st st1 ->
  leastCost k0 (fold_left (endsStep text patLen emptyPeq) js st)
               (fold_left (Rev1.endsStep text patLen emptyPeq) js st1).
Proof.
  revert st st1. induction js as [|j js IH]; intros st st1 H; cbn [fold_left];
    [exact H|].
  now apply IH, endsStep_leastCost.
Qed.

Lemma fold_min_attained r x0 k :
  k <= x0 -> Forall (fun y => k <= y) r -> (x0 = k \/ Exists (fun y => y = k) r) ->
  fold_left Z.min r x0 = k.
Proof.
  intros H0 Hr Hex.
  pose proof (fold_min_lower r x0 k H0 Hr).
  assert (fold_left Z.min r x0 <= k); [|lia].
  apply fold_min_le. destruct Hex as [->|Hex]; [left; lia|right].
  eapply Exists_impl; [|exact Hex]. simpl. intros; lia.
Qed.

Lemma minCost_attained (L : list Match) k :
  Forall (fun m => k <= m_errors m) L ->
  Exists (fun m => m_errors m = k) L ->
  Rev1.minCost L = Some k.
Proof.
  intros Hlow Hex. unfold Rev1.minCost.
  destruct L as [|m L]; [inversion Hex|]. cbn [map]. f_equal.
  inversion Hlow as [|? ? Hm HL]; subst.
  apply fold_min_attained; [exact Hm | |].
  - apply Forall_forall. intros y Hy. rewrite in_map_iff in Hy.
    destruct Hy as (q & <- & Hq). rewrite Forall_forall in HL. now apply HL.
  - inversion Hex as [? ? E|? ? E]; subst; [now left|right].
    apply Exists_exists in E as (q & Hq & Eq). apply Exists_exists.
    exists (m_errors q). split; [now apply in_map | exact Eq].
Qed.

End SingleBlock.

(** X17.  For a pattern of at most 32 symbols, the ratchet of
    [findMatchEnds] returns exactly the matches of least error count among
    those the earlier revision's [findMatchEnds] records, in the same
    order: what that revision's [findMatchStarts] kept by filtering. *)
Theorem ratchet_keeps_least_cost_matches (text pattern : JSString) (k : Z) :
  len pattern <= 32 ->
  let recorded := Rev1.findMatchEnds text pattern k in
  findMatchEnds text pattern k
  = filter (fun m => Some (m_errors m) = Rev1.minCost recorded) recorded.
Proof.
  intros Hlen. simpl. unfold findMatchEnds, findMatchEndsIn, Rev1.findMatchEnds.
  destruct (Z.eqb_spec (len pattern) 0) as [|Hne]; [reflexivity|].
  assert (1 <= len pattern) as Hn by (unfold len in *; lia).
  cbn [fold_left]. unfold scanRegion. cbn [s_ctx s_score s_maxErrors s_matches r_start r_end].
  rewrite Z.sub_0_r.
  set (k0 := Z.min k (len pattern)).
  assert (initialY k0 = 0) as Hy0.
  { unfold initialY, ceilDiv32.
    assert ((k0 + 31) / 32 <= (32 + 31) / 32) by (apply Z.div_le_mono; lia).
    change ((32 + 31) / 32) with 1 in *. lia. }
  assert (bMax (newContext pattern) = 0) as Hb0.
  { unfold newContext; simpl. rewrite bMax_last_row by lia.
    apply Z.div_small. lia. }
  match goal with
  | |- s_matches (fold_left _ ?js ?st) = filter _ (s_matches (fold_left _ ?js ?st1)) =>
      pose proof (endsScan_leastCost text (len pattern)
                    (newArray (bMax (newContext pattern) + 1)) k0 js st st1) as H
  end.
  destruct H as (_ & _ & _ & _ & _ & _ & _ & Hm & Hlow & Hatt).
  { unfold leastCost; cbn [s_ctx s_score s_y s_maxErrors s_matches].
    rewrite Hy0, resetDeltas_bMax. repeat split; auto; try lia. }
  rewrite Hm. destruct Hatt as [[-> _]|Hex]; [reflexivity|].
  apply list_filter_iff. intros m.
  rewrite (minCost_attained _ _ Hlow Hex). split; [congruence|].
  intros E. now injection E.
Qed.

Lemma ratchet_keeps_least_cost_matches_witness :
  len (codes "blnd") <= 32
  /\ findMatchEnds (codes "three blind mice") (codes "blnd") 4
     = filter
         (fun m =>
            Some (m_errors m)
            = Rev1.minCost
                (Rev1.findMatchEnds (codes "three blind mice")
                   (codes "blnd") 4))
         (Rev1.findMatchEnds (codes "three blind mice") (codes "blnd") 4).
Proof.
  assert (len (codes "blnd") <= 32) as H by (vm_compute; discriminate).
  split; [exact H|].
  exact (ratchet_keeps_least_cost_matches (codes "three blind mice")
           (codes "blnd") 4 H).
Defined.

Section LeastCostFilter.

Lemma fold_min_in r x0 : fold_left Z.min r x0 = x0 \/ In (fold_left Z.min r x0) r.
Proof.
  revert x0. induction r as [|a r IH]; intros x0; cbn [fold_left]; [now left|].
  destruct (IH (Z.min x0 a)) as [E|Hin].
  - rewrite E. destruct (Z.min_spec x0 a) as [[_ ->]|[_ ->]]; [now left|right; now left].
  - right. now right.
Qed.

Lemma minCost_spec (ms : list Match) :
  ms <> [] ->
  exists c, Rev1.minCost ms = Some c
    /\ (exists m, m ∈ ms /\ m_errors m = c)
    /\ forall m, m ∈ ms -> c <= m_errors m.
Proof.
  intros Hne. destruct ms as [|m0 ms]; [congruence|].
  unfold Rev1.minCost. cbn [map].
  exists (fold_left Z.min (map m_errors ms) (m_errors m0)).
  split; [reflexivity|]. split.
  - destruct (fold_min_in (map m_errors ms) (m_errors m0)) as [E|Hin].
    + exists m0. split; [apply list_elem_of_here | now rewrite E].
    + rewrite in_map_iff in Hin. destruct Hin as (q & Eq & Hq).
      exists q. split; [right; now apply list_elem_of_In | exact Eq].
  - intros m Hm.
    assert (fold_left Z.min (map m_errors ms) (m_errors m0) <= m_errors m);
      [|lia].
    apply fold_min_le. apply elem_of_cons in Hm as [->|Hm]; [left; lia|right].
    apply Exists_exists. exists (m_errors m).
    split; [apply in_map; now apply list_elem_of_In | lia].
Qed.

End LeastCostFilter.

(** X18.  The earlier revision's [findMatchStarts], for any end-finding
    function: every match it returns has the end and error count of a
    given match and the least error count of all given matches; it returns
    a match whenever it is given one, and none for an empty list. *)
Theorem Rev1_findMatchStarts_keeps_least_cost (text pattern : JSString)
  (found : list Match)
  (findEndFn : JSString -> JSString -> Z -> list Match) :
  let ms := Rev1.findMatchStarts text pattern found findEndFn in
  (forall m', m' ∈ ms ->
     (exists m, m ∈ found /\ m_end m' = m_end m /\ m_errors m' = m_errors m)
     /\ forall m, m ∈ found -> m_errors m' <= m_errors m)
  /\ (found <> [] -> ms <> [])
  /\ (found = [] -> ms = []).
Proof.
  simpl. unfold Rev1.findMatchStarts. split; [|split].
  - intros m' Hm'. rewrite list_elem_of_In, in_map_iff in Hm'.
    destruct Hm' as (m & <- & Hm). rewrite <- list_elem_of_In in Hm.
    apply list_elem_of_filter in Hm as [Hc Hin].
    split; [exists m; auto|]. intros q Hq. simpl.
    destruct (minCost_spec found) as (c & Ec & _ & Hlow).
    { intros ->. inversion Hin. }
    rewrite Ec in Hc. injection Hc as ->. now apply Hlow.
  - intros Hne. destruct (minCost_spec found Hne) as (c & Ec & (m & Hin & Em) & _).
    intros E. apply map_eq_nil in E.
    assert (m ∈ filter (fun m => Some (m_errors m) = Rev1.minCost found) found)
      as Hm.
    { apply list_elem_of_filter. split; [rewrite Ec; now f_equal | exact Hin]. }
    rewrite E in Hm. inversion Hm.
  - intros ->. reflexivity.
Qed.

Section Alphabet.

Lemma ranked_empty : ranked ∅.
Proof.
  split; [|split].
  - intros c v H. rewrite lookup_empty in H. discriminate.
  - intros c d v H. rewrite lookup_empty in H. discriminate.
  - intros v. rewrite map_size_empty. lia.
Qed.

Lemma ranked_insert chars c :
  ranked chars -> chars !! c = None ->
  ranked (<[c := Z.of_nat (size chars)]> chars).
Proof.
  intros (Hr & Hi & Hs) Hc. unfold ranked.
  rewrite map_size_insert_None by assumption.
  split; [|split].
  - intros d v Hd. destruct (decide (c = d)) as [->|Hne].
    + rewrite lookup_insert_eq in Hd. injection Hd as <-. lia.
    + rewrite lookup_insert_ne in Hd by assumption. specialize (Hr d v Hd). lia.
  - intros d e v Hd He.
    destruct (decide (c = d)) as [Ed|Hnd], (decide (c = e)) as [Ee|Hne].
    + congruence.
    + subst d. rewrite lookup_insert_eq in Hd. injection Hd as <-.
      rewrite lookup_insert_ne in He by assumption. specialize (Hr e _ He). lia.
    + subst e. rewrite lookup_insert_eq in He. injection He as <-.
      rewrite lookup_insert_ne in Hd by assumption. specialize (Hr d _ Hd). lia.
    + rewrite lookup_insert_ne in Hd, He by assumption. now apply (Hi d e v).
  - intros v Hv. destruct (decide (v = Z.of_nat (size chars))) as [->|Hne].
    + exists c. apply lookup_insert_eq.
    + destruct (Hs v ltac:(lia)) as (d & Hd). exists d.
      rewrite lookup_insert_ne; [exact Hd|]. intros ->. congruence.
Qed.

Lemma alphabet_fold str (chars : gmap Z Z) :
  ranked chars ->
  let chars' :=
    fold_left
      (fun chars c =>
         match chars !! c with
         | Some _ => chars
         | None => <[c := Z.of_nat (size chars)]> chars
         end) str chars in
  ranked chars'
  /\ (forall c, is_Some (chars' !! c) <-> is_Some (chars !! c) \/ c ∈ str)
  /\ (forall c v, chars !! c = Some v -> chars' !! c = Some v).
Proof.
  revert chars. induction str as [|x str IH]; intros chars Hr; cbn [fold_left].
  - split; [exact Hr|]. split; [|auto]. intros c. rewrite elem_of_nil. tauto.
  - destruct (chars !! x) as [vx|] eqn:Ex.
    + destruct (IH chars Hr) as (Hr' & Hdom & Hkeep).
      split; [exact Hr'|]. split; [|exact Hkeep].
      intros c. rewrite Hdom, elem_of_cons.
      split; [tauto|]. intros [H|[->|H]]; eauto.
    + destruct (IH _ (ranked_insert chars x Hr Ex)) as (Hr' & Hdom & Hkeep).
      split; [exact Hr'|]. split.
      * intros c. rewrite Hdom, elem_of_cons.
        destruct (decide (x = c)) as [->|Hne].
        -- rewrite lookup_insert_eq. split; [auto|]. intros _. left. eauto.
        -- rewrite lookup_insert_ne by assumption.
           split; [tauto|]. intros [H|[E|H]]; auto. congruence.
      * intros c v Hc. apply Hkeep. rewrite lookup_insert_ne; [exact Hc|].
        intros ->. congruence.
Qed.

End Alphabet.

(** X20.  [alphabet(str)] has exactly the symbols of [str] as keys and
    numbers them [0 .. size - 1] without repetition or gap. *)
Theorem alphabet_numbers_distinct_symbols (str : JSString) :
  let chars := Rev0.alphabet str in
  (forall c, c ∈ str <-> is_Some (chars !! c))
  /\ (forall c v, chars !! c = Some v -> 0 <= v < Z.of_nat (size chars))
  /\ (forall c d v, chars !! c = Some v -> chars !! d = Some v -> c = d)
  /\ (forall v, 0 <= v < Z.of_nat (size chars) ->
        exists c, chars !! c = Some v).
Proof.
  simpl. destruct (alphabet_fold str ∅ ranked_empty) as ((Hr & Hi & Hs) & Hdom & _).
  fold (Rev0.alphabet str) in *.
  split; [|split; [|split]]; try assumption.
  intros c. rewrite Hdom, lookup_empty.
  split; [auto|]. intros [H|H]; [|exact H]. destruct H; discriminate.
Qed.

Section Frame.

Lemma advanceWords_delta pV mV eq hIn mask :
  isDelta (fst (fst (advanceWords pV mV eq hIn mask))).
Proof.
  unfold advanceWords, isDelta.
  destruct (hIn <? 0); [|destruct (0 <? hIn)]; simpl;
    repeat match goal with
      | |- context [if ?c then _ else _] => destruct c
      end; simpl; lia.
Qed.

Lemma advanceBlock_delta ctx peqA b hIn :
  isDelta (fst (advanceBlock ctx peqA b hIn)).
Proof.
  unfold advanceBlock.
  pose proof (advanceWords_delta (get (P ctx) b) (get (M ctx) b) (get peqA b)
                hIn (get (lastRowMask ctx) b)) as H.
  destruct (advanceWords _ _ _ _ _) as [[h p] m]. exact H.
Qed.

Lemma advanceBlock_frame ctx peqA b hIn b' :
  b <> b' ->
  let ctx' := snd (advanceBlock ctx peqA b hIn) in
  get (P ctx') b' = get (P ctx) b' /\ get (M ctx') b' = get (M ctx) b'
  /\ peq ctx' = peq ctx /\ lastRowMask ctx' = lastRowMask ctx.
Proof.
  intros Hne. unfold advanceBlock.
  destruct (advanceWords _ _ _ _ _) as [[h p] m]. simpl.
  now rewrite !get_set_other.
Qed.

(** The loop over the active blocks, from any carry and over any blocks
    [bs]: blocks outside [bs] keep their words and score, a block met once
    has its score moved by a delta, the final carry is a delta. *)
Lemma advanceActive_fold peqA bs ctx score carry b :
  isDelta carry -> NoDup bs -> 0 <= b < len score ->
  let '(ctx', score', carry') :=
    fold_left (advanceActiveStep peqA) bs (ctx, score, carry) in
  isDelta carry' /\ len score' = len score
  /\ peq ctx' = peq ctx /\ lastRowMask ctx' = lastRowMask ctx
  /\ (b ∉ bs ->
      get (P ctx') b = get (P ctx) b /\ get (M ctx') b = get (M ctx) b
      /\ get score' b = get score b)
  /\ (b ∈ bs ->
      exists h, isDelta h /\ get score' b = toUint32 (get score b + h)).
Proof.
  intros Hc Hnd Hb. revert ctx score carry Hc Hb.
  induction Hnd as [|b0 bs Hb0 Hnd IH]; intros ctx score carry Hc Hb;
    cbn [fold_left].
  - repeat split; auto. intros H. inversion H.
  - unfold advanceActiveStep at 2.
    pose proof (advanceBlock_delta ctx peqA b0 carry) as Hd.
    pose proof (advanceBlock_frame ctx peqA b0 carry b) as Hf.
    assert (peq (snd (advanceBlock ctx peqA b0 carry)) = peq ctx
            /\ lastRowMask (snd (advanceBlock ctx peqA b0 carry))
               = lastRowMask ctx) as Hk.
    { unfold advanceBlock. destruct (advanceWords _ _ _ _ _) as [[h p] m].
      simpl. auto. }
    destruct (advanceBlock ctx peqA b0 carry) as [carry1 ctx1].
    simpl in Hd, Hf, Hk. destruct Hk as [Hk1 Hk2].
    specialize (IH ctx1 (set score b0 (get score b0 + carry1)) carry1 Hd).
    rewrite len_set in IH. specialize (IH Hb).
    destruct (fold_left _ bs _) as [[ctx' score'] carry'].
    destruct IH as (Hd' & Hl & Hp & Hm & Hout & Hin).
    split; [exact Hd'|]. split; [exact Hl|].
    split; [congruence|]. split; [congruence|]. split.
    + intros Hnin. apply not_elem_of_cons in Hnin as [Hne Hnin].
      destruct (Hout Hnin) as (E1 & E2 & E3).
      destruct (Hf ltac:(congruence)) as (F1 & F2 & _).
      rewrite E1, E2, E3, F1, F2. now rewrite get_set_other by congruence.
    + intros Hbin. apply elem_of_cons in Hbin as [->|Hbin].
      * destruct (Hout Hb0) as (_ & _ & E3). exists carry1.
        split; [exact Hd|]. rewrite E3. now rewrite get_set_same.
      * destruct (Hin Hbin) as (h & Hh & E). exists h. split; [exact Hh|].
        rewrite E. rewrite get_set_other; [reflexivity|]. intros ->. contradiction.
Qed.

End Frame.

Lemma advanceBlock_keeps ctx peqA b hIn :
  let ctx' := snd (advanceBlock ctx peqA b hIn) in
  peq ctx' = peq ctx /\ lastRowMask ctx' = lastRowMask ctx
  /\ bMax ctx' = bMax ctx.
Proof.
  unfold advanceBlock. destruct (advanceWords _ _ _ _ _) as [[h p] m].
  simpl. auto.
Qed.

(** X14.  One column of the scan moves the window index by at most one
    block upwards and never below 0, leaves the profile, the last-row
    masks and [bMax] alone, leaves the words and the score of every block
    above [y + 1] untouched, and moves the score of every active block by
    -1, 0 or 1 (modulo 2^32). *)
Theorem column_works_inside_window (patLen : Z) (emptyPeq : Uint32Array)
  (ctx : Context) (score : Uint32Array) (y k : Z) (ch : option Z) (b : Z) :
  0 <= y -> 0 <= b < len score ->
  let '(ctx', score', y') := column patLen emptyPeq ctx score y k ch in
  0 <= y' <= y + 1
  /\ peq ctx' = peq ctx /\ lastRowMask ctx' = lastRowMask ctx
  /\ bMax ctx' = bMax ctx
  /\ (y + 1 < b ->
      get (P ctx') b = get (P ctx) b /\ get (M ctx') b = get (M ctx) b
      /\ get score' b = get score b)
  /\ (b <= y ->
      exists h, isDelta h /\ get score' b = toUint32 (get score b + h)).
Proof.
  intros Hy Hb. unfold column.
  pose proof (advanceActive_fold (lookupPeq ctx emptyPeq ch) (seqZ 0 (y + 1))
                ctx score 0 b ltac:(unfold isDelta; lia) (NoDup_seqZ _ _) Hb) as Ha.
  pose proof (advanceActive_lengths ctx score (lookupPeq ctx emptyPeq ch) y) as Hl.
  unfold advanceActive in *.
  destruct (fold_left _ _ _) as [[ctx1 score1] carry].
  destruct Ha as (Hd & Hls & Hp & Hm & Hout & Hin).
  destruct Hl as (_ & _ & Hbm & _).
  assert (y + 1 < b -> b ∉ seqZ 0 (y + 1)) as Hnot
    by (intros H; rewrite elem_of_seqZ; lia).
  assert (b <= y -> b ∈ seqZ 0 (y + 1)) as Hyes
    by (intros H; rewrite elem_of_seqZ; lia).
  destruct (_ && _).
  - pose proof (advanceBlock_frame
                  (setM (setP ctx1 (y + 1) (bnot 0)) (y + 1) 0)
                  (lookupPeq ctx emptyPeq ch) (y + 1) carry b) as Hf.
    pose proof (advanceBlock_keeps
                  (setM (setP ctx1 (y + 1) (bnot 0)) (y + 1) 0)
                  (lookupPeq ctx emptyPeq ch) (y + 1) carry) as Hk.
    destruct (advanceBlock _ _ (y + 1) carry) as [hOut ctx2].
    simpl in Hf, Hk. destruct Hk as (K1 & K2 & K3).
    split; [lia|]. split; [congruence|]. split; [congruence|].
    split; [congruence|]. split.
    + intros Hgt. destruct (Hout (Hnot Hgt)) as (E1 & E2 & E3).
      destruct (Hf ltac:(lia)) as (F1 & F2 & _).
      rewrite F1, F2, !get_set_other by lia. auto.
    + intros Hle. destruct (Hin (Hyes Hle)) as (h & Hh & E).
      exists h. split; [exact Hh|]. rewrite get_set_other by lia. exact E.
  - pose proof (shrink_range (Z.to_nat y) score1 k y Hy).
    split; [lia|]. split; [exact Hp|]. split; [exact Hm|].
    split; [exact Hbm|]. split.
    + intros Hgt. exact (Hout (Hnot Hgt)).
    + intros Hle. exact (Hin (Hyes Hle)).
Qed.

Lemma column_works_inside_window_witness :
  let ctx := resetDeltas (newContext (codes "blind")) 0 in
  let score := resetScore 5 0 (newArray 1) 0 in
  0 <= 0 /\ 0 <= 0 < len score
  /\ exists h, isDelta h
       /\ get (snd (fst (column 5 (newArray 1) ctx score 0 2 (Some 98)))) 0
          = toUint32 (get score 0 + h).
Proof.
  assert (0 <= 0 < len (resetScore 5 0 (newArray 1) 0)) as Hb
    by (vm_compute; split; [discriminate | reflexivity]).
  split; [lia|]. split; [exact Hb|].
  pose proof (column_works_inside_window 5 (newArray 1)
                (resetDeltas (newContext (codes "blind")) 0)
                (resetScore 5 0 (newArray 1) 0) 0 2 (Some 98) 0
                ltac:(lia) Hb) as H.
  destruct (column 5 (newArray 1) (resetDeltas (newContext (codes "blind")) 0)
              (resetScore 5 0 (newArray 1) 0) 0 2 (Some 98))
    as [[ctx' score'] y'].
  apply H. lia.
Defined.

(** X15.  The shrink loop stops at the highest block [y' <= y] that is
    block 0 or has a score below [maxErrors + 32]; every block it leaves
    has a score of at least [maxErrors + 32]. *)
Theorem shrink_finds_highest_block (score : Uint32Array) (k y : Z) :
  0 <= y ->
  let y' := shrink (Z.to_nat y) score k y in
  0 <= y' <= y
  /\ (y' = 0 \/ get score y' < k + 32)
  /\ forall b, y' < b <= y -> k + 32 <= get score b.
Proof.
  intros Hy. simpl.
  assert (forall fuel y0, 0 <= y0 <= Z.of_nat fuel ->
            let y' := shrink fuel score k y0 in
            0 <= y' <= y0
            /\ (y' = 0 \/ get score y' < k + 32)
            /\ forall b, y' < b <= y0 -> k + 32 <= get score b) as H.
  { induction fuel as [|fuel IH]; intros y0 Hy0; simpl.
    - split; [lia|]. split; [left; lia|]. intros; lia.
    - destruct (Z.ltb_spec 0 y0) as [Hpos|Hz]; simpl.
      + destruct (Z.leb_spec (k + 32) (get score y0)) as [Hge|Hlt].
        * destruct (IH (y0 - 1) ltac:(lia)) as (H1 & H2 & H3).
          split; [lia|]. split; [exact H2|].
          intros b Hb. destruct (Z.eq_dec b y0) as [->|]; [exact Hge|].
          apply H3. lia.
        * split; [lia|]. split; [right; exact Hlt|]. intros; lia.
      + split; [lia|]. split; [left; lia|]. intros; lia. }
  apply H. lia.
Qed.

Lemma shrink_finds_highest_block_witness :
  0 <= 1
  /\ (let y' := shrink (Z.to_nat 1) [40; 70] 0 1 in
      0 <= y' <= 1
      /\ (y' = 0 \/ get [40; 70] y' < 0 + 32)
      /\ forall b, y' < b <= 1 -> 0 + 32 <= get [40; 70] b).
Proof.
  split; [lia|].
  exact (shrink_finds_highest_block [40; 70] 0 1 ltac:(lia)).
Defined.

(** X7.  On an empty text [multiSearch] returns an empty list for every
    configuration and no region. *)
Theorem multiSearch_empty_text (configs : list PatternConfig) :
  multiSearch [] configs = mkResult (map (fun _ => []) configs) [].
Proof.
  unfold multiSearch.
  assert (forall ps k, findMatchRegions [] ps k = []) as Hr.
  { intros ps k. unfold findMatchRegions. now destruct ps. }
  rewrite Hr. f_equal. apply map_ext. intros cfg.
  unfold findMatchEndsIn. now destruct (len (pattern cfg) =? 0).
Qed.

Section EmptyPatterns.

Lemma maximum_zero xs : Forall (fun x => x = 0) xs -> maximum xs = 0.
Proof.
  intros H. destruct H as [|x xs -> H]; [reflexivity|]. cbn [maximum].
  induction H as [|y ys -> H IH]; [reflexivity|]. exact IH.
Qed.

Lemma regionsStep_no_block text maxLen k emptyPeq st j :
  nonneg (f_score st) -> 0 <= f_y st -> bMax (f_ctx st) = -1 ->
  let st' := regionsStep text maxLen k emptyPeq st j in
  nonneg (f_score st') /\ 0 <= f_y st' /\ bMax (f_ctx st') = -1
  /\ f_regions st' = f_regions st.
Proof.
  intros Hs Hy Hb. unfold regionsStep.
  pose proof (column_invariant maxLen emptyPeq (f_ctx st) (f_score st)
                (f_y st) k (charCodeAt text j) Hs Hy) as Hc.
  destruct (column _ _ _ _ _ _ _) as [[ctx score] y].
  destruct Hc as (Hs' & Hy' & Hb').
  destruct (Z.eqb_spec y (bMax ctx)) as [E|E]; [lia|].
  simpl. repeat split; try assumption. congruence.
Qed.

End EmptyPatterns.

(** X8.  When every pattern is empty, [findMatchRegions] returns no
    region, for any text and budget. *)
Theorem regions_need_a_pattern_symbol (text : JSString)
  (patterns : list JSString) (k : Z) :
  Forall (fun p => p = []) patterns ->
  findMatchRegions text patterns k = [].
Proof.
  intros Hall. unfold findMatchRegions. destruct patterns as [|p ps]; [reflexivity|].
  assert (maximum (map len (p :: ps)) = 0) as Hmax.
  { apply maximum_zero. apply Forall_forall. intros x Hx.
    rewrite in_map_iff in Hx. destruct Hx as (q & <- & Hq).
    rewrite Forall_forall in Hall. now rewrite (Hall q Hq). }
  rewrite Hmax.
  match goal with
  | |- f_regions (fold_left ?f _ _) = [] =>
      assert (forall js st, nonneg (f_score st) -> 0 <= f_y st ->
                bMax (f_ctx st) = -1 -> f_regions st = [] ->
                f_regions (fold_left f js st) = []) as H
  end.
  { induction js as [|j js IH]; intros st Hs Hy Hb Hr; cbn [fold_left];
      [exact Hr|].
    destruct (regionsStep_no_block text 0
                (Z.min k 0)
                (buildEmptyPeq (minimum (map len (p :: ps))) 0 (ceilDiv32 0 - 1))
                st j Hs Hy Hb) as (Hs' & Hy' & Hb' & Hr').
    apply IH; try assumption. congruence. }
  apply H; simpl.
  - apply resetScore_nonneg, newArray_nonneg.
  - unfold initialY. lia.
  - now rewrite resetDeltas_bMax.
  - reflexivity.
Qed.

Lemma regions_need_a_pattern_symbol_witness :
  Forall (fun p : JSString => p = []) [[]; []]
  /\ findMatchRegions (codes "one") [[]; []] 1 = [].
Proof.
  assert (Forall (fun p : JSString => p = []) [[]; []]) as H
    by (repeat constructor).
  split; [exact H|].
  exact (regions_need_a_pattern_symbol (codes "one") [[]; []] 1 H).
Defined.

Section Online.

Lemma charCodeAt_app_l s t j :
  j < len s -> charCodeAt (s ++ t) j = charCodeAt s j.
Proof.
  unfold charCodeAt, len. intros H. destruct (Z.ltb_spec j 0); [reflexivity|].
  apply lookup_app_l. lia.
Qed.

Lemma len_app s t : len (s ++ t) = len s + len t.
Proof. unfold len. rewrite length_app. lia. Qed.

Lemma endsStep_prefix text more patLen emptyPeq st j :
  j < len text ->
  endsStep (text ++ more) patLen emptyPeq st j
  = endsStep text patLen emptyPeq st j.
Proof. intros H. unfold endsStep. now rewrite charCodeAt_app_l. Qed.

Lemma Rev1_endsStep_prefix text more patLen emptyPeq st j :
  j < len text ->
  Rev1.endsStep (text ++ more) patLen emptyPeq st j
  = Rev1.endsStep text patLen emptyPeq st j.
Proof. intros H. unfold Rev1.endsStep. now rewrite charCodeAt_app_l. Qed.

Lemma fold_left_ext_in {A B} (f g : A -> B -> A) (l : list B) (a : A) :
  (forall x y, In y l -> f x y = g x y) -> fold_left f l a = fold_left g l a.
Proof.
  revert a. induction l as [|y l IH]; intros a H; cbn [fold_left]; [reflexivity|].
  rewrite H by now left. apply IH. intros x z Hz. apply H. now right.
Qed.

Lemma Rev1_reportMatch_grows st j :
  exists new,
    s_matches (Rev1.reportMatch st j) = s_matches st ++ new
    /\ Forall (fun m => m_end m = j + 1) new.
Proof.
  unfold Rev1.reportMatch. destruct (_ && _); simpl.
  - eexists. split; [reflexivity|]. repeat constructor.
  - exists []. split; [now rewrite app_nil_r | constructor].
Qed.

Lemma Rev1_endsScan_grows text patLen emptyPeq a (n : nat) st :
  exists new,
    s_matches (fold_left (Rev1.endsStep text patLen emptyPeq)
                         (seqZ a (Z.of_nat n)) st)
    = s_matches st ++ new
    /\ Forall (fun m => a < m_end m) new.
Proof.
  induction n as [|n (new & E & Hnew)].
  - exists []. simpl. split; [now rewrite app_nil_r | constructor].
  - rewrite seqZ_S, fold_left_app. cbn [fold_left].
    unfold Rev1.endsStep at 1.
    destruct (column _ _ _ _ _ _ _) as [[ctx score] y].
    destruct (Rev1_reportMatch_grows
                (mkScan ctx score y
                   (s_maxErrors (fold_left (Rev1.endsStep text patLen emptyPeq)
                                           (seqZ a (Z.of_nat n)) st))
                   (s_matches (fold_left (Rev1.endsStep text patLen emptyPeq)
                                         (seqZ a (Z.of_nat n)) st)))
                (a + Z.of_nat n)) as (new' & E' & Hnew').
    rewrite E'. cbn [s_matches]. rewrite E. exists (new ++ new').
    split; [now rewrite app_assoc|]. apply Forall_app; split; [exact Hnew|].
    eapply Forall_impl; [|exact Hnew']. simpl. intros; lia.
Qed.

End Online.

(** X19.  The earlier revision's [findMatchEnds] is online: extending the
    text keeps the matches found so far and only appends matches that end
    in the extension. *)
Theorem Rev1_findMatchEnds_online (text more pattern : JSString) (k : Z) :
  exists later,
    Rev1.findMatchEnds (text ++ more) pattern k
    = Rev1.findMatchEnds text pattern k ++ later
    /\ Forall (fun m => len text < m_end m) later.
Proof.
  unfold Rev1.findMatchEnds. destruct (len pattern =? 0).
  - exists []. split; [reflexivity | constructor].
  - rewrite len_app. rewrite seqZ_app by (unfold len; lia).
    rewrite fold_left_app.
    rewrite (fold_left_ext_in
               (Rev1.endsStep (text ++ more) (len pattern)
                  (newArray (bMax (newContext pattern) + 1)))
               (Rev1.endsStep text (len pattern)
                  (newArray (bMax (newContext pattern) + 1)))
               (seqZ 0 (len text))).
    + rewrite Z.add_0_l, (seqZ_to_nat (len text) (len more)).
      match goal with
      | |- context [fold_left ?f (seqZ ?a (Z.of_nat ?n)) ?s] =>
          destruct (Rev1_endsScan_grows (text ++ more) (len pattern)
                      (newArray (bMax (newContext pattern) + 1)) a n s)
            as (new & E & Hnew)
      end.
      exists new. split; [exact E|]. exact Hnew.
    + intros st j Hj. apply Rev1_endsStep_prefix.
      rewrite <- list_elem_of_In, elem_of_seqZ in Hj. lia.
Qed.

Section OnlineRatchet.

Lemma reportMatch_continues a st j ms :
  a <= j -> continues a ms (s_matches st) ->
  continues a ms (s_matches (reportMatch st j)).
Proof.
  intros Hj H. unfold reportMatch. destruct (_ && _); [|exact H]. simpl.
  destruct (_ <? _).
  - right. repeat constructor. simpl. lia.
  - destruct H as [(later & -> & Hl)|Hall].
    + left. exists (later ++ [mkMatch (-1) (j + 1) (get (s_score st) (s_y st))]).
      split; [now rewrite app_assoc|].
      apply Forall_app; split; [exact Hl | repeat constructor; simpl; lia].
    + right. apply Forall_app; split; [exact Hall | repeat constructor; simpl; lia].
Qed.

Lemma endsScan_continues text patLen emptyPeq a js st ms :
  Forall (fun j => a <= j) js -> continues a ms (s_matches st) ->
  continues a ms
    (s_matches (fold_left (endsStep text patLen emptyPeq) js st)).
Proof.
  revert st. induction js as [|j js IH]; intros st Hjs H; cbn [fold_left];
    [exact H|].
  inversion Hjs; subst. apply IH; [assumption|].
  unfold endsStep. destruct (column _ _ _ _ _ _ _) as [[ctx score] y].
  now apply reportMatch_continues.
Qed.

End OnlineRatchet.

(** X5.  [findMatchEnds] on an extended text either keeps all the matches
    of the original text and appends matches ending in the extension, or
    returns only matches ending in the extension (the ratchet discarded
    the earlier ones). *)
Theorem findMatchEnds_online (text more pattern : JSString) (k : Z) :
  continues (len text) (findMatchEnds text pattern k)
            (findMatchEnds (text ++ more) pattern k).
Proof.
  unfold findMatchEnds, findMatchEndsIn. destruct (len pattern =? 0).
  - left. exists []. split; [reflexivity | constructor].
  - cbn [fold_left]. unfold scanRegion.
    cbn [r_start r_end s_ctx s_score s_maxErrors s_matches].
    rewrite !Z.sub_0_r, len_app.
    rewrite seqZ_app by (unfold len; lia). rewrite fold_left_app.
    rewrite (fold_left_ext_in
               (endsStep (text ++ more) (len pattern)
                  (newArray (bMax (newContext pattern) + 1)))
               (endsStep text (len pattern)
                  (newArray (bMax (newContext pattern) + 1)))
               (seqZ 0 (len text))).
    + apply endsScan_continues.
      * apply Forall_seqZ. intros j Hj. lia.
      * left. exists []. split; [now rewrite app_nil_r | constructor].
    + intros st j Hj. apply endsStep_prefix.
      rewrite <- list_elem_of_In, elem_of_seqZ in Hj. lia.
Qed.

Section Cover.

Lemma findMatchRegions_scan text patterns k :
  patterns <> [] ->
  findMatchRegions text patterns k
  = f_regions (filterScan text patterns k (len text)).
Proof. intros H. destruct patterns; [congruence | reflexivity]. Qed.

Lemma addRegion_covers j rs s e :
  regionsWithin j rs -> covered e rs -> covered e (addRegion rs s (j + 1)).
Proof.
  intros Hw (r & Hr & Hin). destruct rs as [|q rs _] using rev_ind.
  - inversion Hr.
  - apply Forall_app in Hw as [_ Hq]. inversion Hq as [|? ? Hq' _]; subst.
    destruct (Z.le_gt_cases s (r_end q)).
    + rewrite addRegion_merge by assumption.
      apply elem_of_app in Hr as [Hr|Hr].
      * exists r. split; [apply elem_of_app; now left | exact Hin].
      * apply list_elem_of_singleton in Hr as ->.
        exists (mkRegion (r_start q) (j + 1)).
        split; [apply elem_of_app; right; apply list_elem_of_singleton; reflexivity|].
        unfold insideRegion in *. simpl. lia.
    + rewrite addRegion_push by lia.
      exists r. split; [apply elem_of_app; now left | exact Hin].
Qed.

Lemma addRegion_covers_end j rs s :
  regionsWithin j rs -> 0 <= s < j + 1 -> covered (j + 1) (addRegion rs s (j + 1)).
Proof.
  intros Hw Hs. destruct rs as [|q rs _] using rev_ind.
  - rewrite addRegion_nil. exists (mkRegion s (j + 1)).
    split; [apply list_elem_of_here | unfold insideRegion; simpl; lia].
  - apply Forall_app in Hw as [_ Hq]. inversion Hq as [|? ? Hq' _]; subst.
    destruct (Z.le_gt_cases s (r_end q)).
    + rewrite addRegion_merge by assumption.
      exists (mkRegion (r_start q) (j + 1)).
      split; [apply elem_of_app; right; apply list_elem_of_here|].
      unfold insideRegion; simpl; lia.
    + rewrite addRegion_push by lia.
      exists (mkRegion s (j + 1)).
      split; [apply elem_of_app; right; apply list_elem_of_here|].
      unfold insideRegion; simpl; lia.
Qed.

Variables (text : JSString) (maxLen k : Z) (emptyPeq : Uint32Array).
Hypothesis maxLen_nonneg : 0 <= maxLen.

Lemma regionsStep_covers st j e :
  0 <= j -> filterInv maxLen j st -> covered e (f_regions st) ->
  covered e (f_regions (regionsStep text maxLen k emptyPeq st j)).
Proof.
  intros Hj (Hs & Hy & Hb & Hr) Hc. unfold regionsStep.
  destruct (column _ _ _ _ _ _ _) as [[ctx score] y].
  destruct (_ && _); simpl; [|exact Hc].
  now apply addRegion_covers.
Qed.

Lemma regionsScan_covers a (n : nat) st e :
  0 <= a -> filterInv maxLen a st -> covered e (f_regions st) ->
  let st' :=
    fold_left (regionsStep text maxLen k emptyPeq) (seqZ a (Z.of_nat n)) st in
  filterInv maxLen (a + Z.of_nat n) st' /\ covered e (f_regions st').
Proof.
  intros Ha Hinv Hc. cbv zeta. induction n as [|n [IH1 IH2]].
  - simpl. rewrite Z.add_0_r. auto.
  - rewrite seqZ_S, fold_left_app. cbn [fold_left].
    replace (a + Z.of_nat (S n)) with (a + Z.of_nat n + 1) by lia.
    split.
    + apply regionsStep_invariant; [assumption | lia | exact IH1].
    + apply regionsStep_covers; [lia | exact IH1 | exact IH2].
Qed.

End Cover.

Lemma filterStart_invariant patterns k :
  filterInv (maximum (map len patterns)) 0 (filterStart patterns k).
Proof.
  unfold filterInv, filterStart. simpl. repeat split.
  - apply resetScore_nonneg, newArray_nonneg.
  - unfold initialY. lia.
  - now rewrite resetDeltas_bMax.
  - constructor.
Qed.

(** X9.  Every column the scan of [findMatchRegions] flags (window at the
    last block, score within the budget) ends inside one of the regions
    returned: later columns only extend the last region or push new
    ones. *)
Theorem regions_cover_flagged_columns (text : JSString)
  (patterns : list JSString) (k j : Z) :
  patterns <> [] -> 0 <= j < len text ->
  flagged text patterns k j = true ->
  covered (j + 1) (findMatchRegions text patterns k).
Proof.
  intros Hne Hj Hf. rewrite findMatchRegions_scan by assumption.
  pose proof (maximum_len_nonneg patterns) as Hmax.
  unfold flagged in Hf. unfold filterScan in *.
  set (maxLen := maximum (map len patterns)) in *.
  set (k' := Z.min k maxLen) in *.
  set (e := buildEmptyPeq (minimum (map len patterns)) maxLen
              (ceilDiv32 maxLen - 1)) in *.
  replace (len text) with (j + (1 + (len text - j - 1))) by lia.
  rewrite seqZ_app, seqZ_app by lia. rewrite !fold_left_app.
  rewrite Z.add_0_l. change (seqZ j 1) with [j]. cbn [fold_left].
  assert (filterInv maxLen j
            (fold_left (regionsStep text maxLen k' e) (seqZ 0 j)
                       (filterStart patterns k))) as Hinv.
  { rewrite <- (Z2Nat.id j) by lia.
    apply regionsScan_invariant; [exact Hmax | apply filterStart_invariant]. }
  set (before := fold_left (regionsStep text maxLen k' e) (seqZ 0 j)
                           (filterStart patterns k)) in *.
  assert (covered (j + 1) (f_regions (regionsStep text maxLen k' e before j)))
    as Hc.
  { destruct Hinv as (Hs & Hy & Hb & Hr). unfold regionsStep.
    pose proof (column_invariant maxLen e (f_ctx before) (f_score before)
                  (f_y before) k' (charCodeAt text j) Hs Hy) as Hci.
    destruct (column _ _ _ _ _ _ _) as [[ctx score] y].
    destruct Hci as (Hs' & Hy' & Hb').
    rewrite Hf. simpl.
    apply andb_true_iff in Hf as [Ey _]. apply Z.eqb_eq in Ey.
    assert (1 <= maxLen) by (apply (full_window_pattern maxLen Hmax y); congruence).
    pose proof (get_nonneg score y Hs').
    apply addRegion_covers_end; [exact Hr | lia]. }
  rewrite (seqZ_to_nat (j + 1)).
  apply (regionsScan_covers text maxLen k' e Hmax (j + 1)); [lia | | exact Hc].
  apply regionsStep_invariant; [exact Hmax | lia | exact Hinv].
Qed.

Lemma regions_cover_flagged_columns_witness :
  [codes "one"] <> [] /\ 0 <= 2 < len (codes "one two")
  /\ flagged (codes "one two") [codes "one"] 0 2 = true
  /\ covered (2 + 1) (findMatchRegions (codes "one two") [codes "one"] 0).
Proof.
  assert ([codes "one"] <> []) as Hne by discriminate.
  assert (0 <= 2 < len (codes "one two")) as Hj
    by (vm_compute; split; [discriminate | reflexivity]).
  assert (flagged (codes "one two") [codes "one"] 0 2 = true) as Hf
    by (vm_compute; reflexivity).
  split; [exact Hne|]. split; [exact Hj|]. split; [exact Hf|].
  exact (regions_cover_flagged_columns (codes "one two") [codes "one"] 0 2
           Hne Hj Hf).
Defined.


